(** * Country-dependent address fields: a model of [components/I18nAddressFields.js]

    The development embeds the data-transforming functions of the address
    component ([wrangleAddressData], [serializeAddress],
    [getAddressFieldDifferences], [buildZoneOption], the two [ZoneSelect]
    hooks and the [fetchData] effect) as executable Rocq functions, and
    proves the properties the specification states about them.

    Conventions.
    - A JavaScript string is a [string]; one [ascii] stands for one
      character, and strings are compared by character code as [<] and
      [Array.prototype.sort] do.
    - A plain object is the list of its own entries in [Object.keys] order;
      its keys are pairwise distinct.
    - Code that can throw returns a [result]. *)

From Stdlib Require Import List String Ascii Bool Arith ZArith Lia.
From Stdlib Require Import Permutation Sorted OrderedTypeEx.
Import ListNotations.

Local Open Scope string_scope.
Local Open Scope list_scope.

(** ** The fragment of JavaScript the component uses *)

Module Js.

(** Exceptions the modelled code can raise. *)
Inductive error : Type :=
| TypeError.

Inductive result (A : Type) : Type :=
| Ok (a : A)
| Throw (e : error).
Arguments Ok {A} a.
Arguments Throw {A} e.

Definition bind {A B : Type} (r : result A) (k : A -> result B) : result B :=
  match r with
  | Ok a => k a
  | Throw e => Throw e
  end.

(** Reading through [null] or [undefined] throws. *)
Definition deref {A : Type} (o : option A) : result A :=
  match o with
  | Some a => Ok a
  | None => Throw TypeError
  end.

(** Values stored in an address: a string, [null] or [undefined]. *)
Inductive jsval : Type :=
| JUndefined
| JNull
| JStr (s : string).

(** Truthiness, as tested by [if (v)] and [v && ...]. *)
Definition truthy (v : jsval) : bool :=
  match v with
  | JStr s => negb (s =? "")
  | _ => false
  end.

(** [v === s] for a string [s]. *)
Definition strictEqStr (s : string) (v : jsval) : bool :=
  match v with
  | JStr t => s =? t
  | _ => false
  end.

(** A plain object with values in [V]: own entries, in key order. *)
Definition object (V : Type) : Type := list (string * V).

Definition Object_keys {V : Type} (o : object V) : list string := map fst o.

(** Own-property read [o[k]]; [None] when the key is absent. *)
Fixpoint getOwn {V : Type} (o : object V) (k : string) : option V :=
  match o with
  | [] => None
  | (k', v) :: rest => if k =? k' then Some v else getOwn rest k
  end.

(** Property write [o[k] = v]: an existing key keeps its position, a new
    key goes last. *)
Fixpoint setOwn {V : Type} (o : object V) (k : string) (v : V) : object V :=
  match o with
  | [] => [(k, v)]
  | (k', v') :: rest =>
      if k =? k' then (k', v) :: rest else (k', v') :: setOwn rest k v
  end.

(** [Array.prototype.includes] on strings. *)
Definition includes (l : list string) (x : string) : bool :=
  existsb (String.eqb x) l.

(** [Array.prototype.indexOf]: first position, or [-1]. *)
Fixpoint indexOf (l : list string) (x : string) : Z :=
  match l with
  | [] => (-1)%Z
  | y :: rest =>
      if x =? y then 0%Z
      else let i := indexOf rest x in
           if (i <? 0)%Z then (-1)%Z else (i + 1)%Z
  end.

(** [Array.prototype.sort(cmp)]: the sort is stable, so it is determined by
    the comparator; it is written here as an insertion from the right. *)
Section Sort.
Context {A : Type} (cmp : A -> A -> Z).

Fixpoint insertSorted (x : A) (l : list A) : list A :=
  match l with
  | [] => [x]
  | y :: rest =>
      if (cmp x y <=? 0)%Z then x :: y :: rest
      else y :: insertSorted x rest
  end.

Definition Array_sort (l : list A) : list A :=
  fold_right insertSorted [] l.

(** The order the comparator induces: [x] may stand before [y]. *)
Definition before (x y : A) : Prop := (cmp x y <= 0)%Z.
End Sort.

(** The order of [<] and [>] on strings, as a comparator. *)
Definition compareStrings (a b : string) : Z :=
  match String.compare a b with
  | Lt => (-1)%Z
  | Eq => 0%Z
  | Gt => 1%Z
  end.

(** [Array.prototype.join]: [null] and [undefined] elements are written as
    the empty string, and still separated. *)
Definition joinItem (v : jsval) : string :=
  match v with
  | JStr s => s
  | _ => ""
  end.

Definition Array_join (sep : string) (l : list jsval) : string :=
  String.concat sep (map joinItem l).

(** The string ['\n']. *)
Definition newline : string := String (ascii_of_nat 10) EmptyString.

(** *** The regular expression [/([A-Za-z])\w+/g] *)

Definition isLetter (c : ascii) : bool :=
  let n := nat_of_ascii c in
  (((65 <=? n) && (n <=? 90)) || ((97 <=? n) && (n <=? 122)))%nat.

(** [\w] is [[A-Za-z0-9_]]. *)
Definition isWordChar (c : ascii) : bool :=
  let n := nat_of_ascii c in
  isLetter c || ((48 <=? n) && (n <=? 57))%nat || (n =? 95)%nat.

(** A candidate is a letter with the word characters read after it; it is a
    match once at least one word character follows the letter. *)
Definition closeMatch (cur : option string) : list string :=
  match cur with
  | Some tok => if (2 <=? String.length tok)%nat then [tok] else []
  | None => []
  end.

(** Left-to-right scan: [cur] is the candidate being extended. A match
    starts at the first letter met outside a candidate, and greedily takes
    every following word character; the scan resumes after it. *)
Fixpoint scanMatches (cur : option string) (s : string) : list string :=
  match s with
  | EmptyString => closeMatch cur
  | String c rest =>
      match cur with
      | None =>
          if isLetter c then scanMatches (Some (String c EmptyString)) rest
          else scanMatches None rest
      | Some tok =>
          if isWordChar c
          then scanMatches (Some (tok ++ String c EmptyString)%string) rest
          else closeMatch cur ++ scanMatches None rest
      end
  end.

(** [s.match(/([A-Za-z])\w+/g)]: the list of all matches, or [null] when
    there is none. *)
Definition String_match (s : string) : option (list string) :=
  match scanMatches None s with
  | [] => None
  | ms => Some ms
  end.

End Js.

Import Js.

Notation "x <- r ;; k" := (bind r (fun x => k))
  (at level 61, r at next level, right associativity).

(** ** The functions taken from lodash *)

Module Lodash.

(** [isEmpty] of an array. *)
Definition isEmpty {A : Type} (l : list A) : bool :=
  match l with
  | [] => true
  | _ :: _ => false
  end.

(** [get(object, 'zones', [])]: the default replaces a missing list. *)
Definition getOr {A : Type} (o : option A) (default : A) : A :=
  match o with
  | Some a => a
  | None => default
  end.

(** [pick(object, paths)] for paths that are plain property names, written
    without ['.'] or ['['] and not inherited from [Object.prototype], as the
    names of the address fields are: a new object receives, path by path,
    the properties the source object has. The key order of the new object
    is the order of the paths. *)
Definition pick {V : Type} (o : object V) (paths : list string) : object V :=
  fold_left
    (fun result path =>
       match getOwn o path with
       | Some v => setOwn result path v
       | None => result
       end)
    paths [].

(** The default omission of [truncate]. *)
Definition omission : string := "...".

(** [truncate(string, { length })]: a string longer than [length] is cut so
    that the result, omission included, is [length] characters long. *)
Definition truncate (s : string) (length : nat) : string :=
  if (String.length s <=? length)%nat then s
  else
    let end_ := (length - String.length omission)%nat in
    if (end_ <? 1)%nat then omission
    else (String.substring 0 end_ s ++ omission)%string.

(** [orderBy(collection, iteratee)] on a string-valued property: a stable
    ascending sort on the value of the property. *)
Definition orderBy {A : Type} (collection : list A) (iteratee : A -> string)
  : list A :=
  Array_sort (fun a b => compareStrings (iteratee a) (iteratee b)) collection.

End Lodash.

(** ** The component *)

Module I18nAddressFields.

Import Lodash.

(** *** Data *)

(** An entry of a country's [zones]. *)
Record zone : Type := { name : string; code : string }.

(** [addressInfo.formatting]. *)
Record formatting : Type := { edit : option string }.

(** What [pick(response, ['formatting', 'labels', 'optionalLabels',
    'zones'])] keeps of a country; [None] is a property the response does
    not have. *)
Record countryInfo : Type := {
  info_formatting : option formatting;
  info_labels : option (object string);
  info_optionalLabels : option (object string);
  info_zones : option (list zone)
}.

(** An element of the list [wrangleAddressData] returns: the array
    [[fieldName, fieldLabel]], to which the zones are pushed for the zone
    field. *)
Record field : Type := {
  fieldName : string;
  fieldLabel : string;
  fieldInfo : option (list zone)
}.

(** The argument of [wrangleAddressData] by its [typeof]. *)
Inductive infoArg : Type :=
| NotObject (v : string)
| UndefinedInfo
| NullInfo
| Info (i : countryInfo).

Inductive wrangled : Type :=
| Unchanged (a : infoArg)
| FormFields (fs : list field).

(** *** Constants *)

Definition missingCountries : list string :=
  ["AS"; "AQ"; "GU"; "MH"; "FM"; "MP"; "PW"; "PR"; "VI"].

Definition necessaryFields : list string :=
  ["address1"; "address2"; "city"; "zip"; "province"].

(** *** [wrangleAddressData] *)

(** The callback of [matches.map]. *)
Definition renameMatch (match_ : string) : string :=
  if match_ =? "zip" then "postalCode"
  else if match_ =? "province" then "zone"
  else match_.

(** [matches]: the matches of the layout that are necessary fields. *)
Definition matches (formLayout : string) : result (list string) :=
  all <- deref (String_match formLayout) ;;
  Ok (filter (fun match_ => includes necessaryFields match_) all).

(** [mappedMatches], from the [edit] property of the formatting; a missing
    or [null] layout has no [match] method. *)
Definition mappedMatches (edit_ : option string) : result (list string) :=
  formLayout <- deref edit_ ;;
  ms <- matches formLayout ;;
  Ok (map renameMatch ms).

(** [addressFormFields]: the entries of the labels whose key is a mapped
    match, sorted on the position of the key among the mapped matches. *)
Definition addressFormFields (mapped : list string) (labels : object string)
  : list (string * string) :=
  Array_sort
    (fun a b => (indexOf mapped (fst a) - indexOf mapped (fst b))%Z)
    (filter (fun entry => includes mapped (fst entry)) labels).

Definition entryField (entry : string * string) : field :=
  {| fieldName := fst entry; fieldLabel := snd entry; fieldInfo := None |}.

(** [zoneIndex.push(addressInfo.zones)] on the first entry whose key is
    ['zone']; [None] when [find] returns [undefined]. *)
Fixpoint pushZones (fs : list field) (zs : list zone) : option (list field) :=
  match fs with
  | [] => None
  | f :: rest =>
      if fieldName f =? "zone"
      then Some ({| fieldName := fieldName f;
                    fieldLabel := fieldLabel f;
                    fieldInfo := Some zs |} :: rest)
      else option_map (cons f) (pushZones rest zs)
  end.

Definition wrangleAddressData (addressInfo : infoArg) : result wrangled :=
  match addressInfo with
  | NotObject _ | UndefinedInfo => Ok (Unchanged addressInfo)
  | NullInfo => Throw TypeError
  | Info i =>
      fmt <- deref (info_formatting i) ;;
      mapped <- mappedMatches (edit fmt) ;;
      labels <- deref (info_labels i) ;;
      let fs := map entryField (addressFormFields mapped labels) in
      let zones := getOr (info_zones i) [] in
      if includes mapped "zone" && negb (isEmpty zones)
      then fs' <- deref (pushZones fs zones) ;; Ok (FormFields fs')
      else Ok (FormFields fs)
  end.

(** *** [serializeAddress] *)

(** An address value: its keys are field names. *)
Definition address : Type := object jsval.

(** [address[k]] for a key of the object. *)
Definition readKey (a : address) (k : string) : jsval :=
  getOr (getOwn a k) JUndefined.

(** The argument is [None] for [null] or [undefined], on which
    [Object.keys] throws. *)
Definition serializeAddress (address_ : option address) : result string :=
  a <- deref address_ ;;
  Ok (Array_join newline
        (map (fun k => readKey a k)
           (Array_sort compareStrings (Object_keys a)))).

(** *** [getAddressFieldDifferences] *)

(** Address objects live in a store and are passed by reference: a
    location is an index of the store, and [None] is [null] or
    [undefined]. *)
Definition heap : Type := list address.
Definition ref : Type := option nat.

Definition load (h : heap) (r : ref) : option address :=
  match r with
  | Some l => nth_error h l
  | None => None
  end.

(** Allocation of a new object. *)
Definition alloc (h : heap) (a : address) : heap * ref :=
  (h ++ [a], Some (List.length h)).

Definition differenceInAddressFields (a : address)
  (addressFieldsArray : list string) : bool :=
  negb (isEmpty
          (filter (fun key => negb (includes addressFieldsArray key))
             (Object_keys a))).

Definition getAddressFieldDifferences (h : heap) (formAddressValues : ref)
  (addressFields : list field) : result (heap * ref) :=
  let addressFieldsArray := map fieldName addressFields in
  a <- deref (load h formAddressValues) ;;
  if differenceInAddressFields a addressFieldsArray
  then Ok (alloc h (pick a addressFieldsArray))
  else Ok (h, formAddressValues).

(** *** [ZoneSelect] *)

Record zoneOption : Type := { value : string; label : string }.

Definition buildZoneOption (z : zone) : zoneOption :=
  {| value := name z;
     label := (truncate (name z) 30 ++ " - " ++ code z)%string |}.

(** The memoised [zoneOptions]; [info || []] replaces a missing list. *)
Definition zoneOptions (info : option (list zone)) : list zoneOption :=
  orderBy (map buildZoneOption (getOr info [])) label.

(** The argument of [onChange]: [{ target: { name, value } }]. *)
Record changeEvent : Type := { target_name : string; target_value : jsval }.

(** The effect that resets an unsupported zone: the call of [onChange] it
    makes, if any. An array is always truthy, so the outer test passes. *)
Definition resetZone (options : list zoneOption) (formValueZone : jsval)
  (name_ : string) : option changeEvent :=
  if truthy formValueZone
     && negb (match find (fun option => strictEqStr (value option) formValueZone)
                      options with
              | Some _ => true
              | None => false
              end)
  then Some {| target_name := name_; target_value := JNull |}
  else None.

End I18nAddressFields.

Import Lodash I18nAddressFields.

(** ** The effect that loads a country: [fetchData] *)

Module CountryEffect.

(** Calls the component makes on its caller. *)
Inductive callback : Type :=
| OnCountryChange (v : ref)
| OnLoadSuccess (info : countryInfo) (addressFields : list field)
| OnLoadError.

(** What a run of the effect closes over: the country it asks for and the
    [value] prop of the render that started it. *)
Record fetch : Type := { fetch_country : string; fetch_value : ref }.

(** The state of the component ([data], [fields], [loading]), the store of
    address objects, the calls made so far (oldest first), and the fetches
    whose promise is not settled yet, numbered in the order they started. *)
Record component : Type := {
  data : option countryInfo;
  fields : option (list field);
  loading : bool;
  store : heap;
  calls : list callback;
  pending : list (nat * fetch);
  started : nat
}.

Definition mount (h : heap) : component :=
  {| data := None; fields := None; loading := true; store := h;
     calls := []; pending := []; started := 0 |}.

Definition setData (c : component) (d : countryInfo) : component :=
  {| data := Some d; fields := fields c; loading := loading c;
     store := store c; calls := calls c; pending := pending c;
     started := started c |}.

Definition setFields (c : component) (fs : list field) : component :=
  {| data := data c; fields := Some fs; loading := loading c;
     store := store c; calls := calls c; pending := pending c;
     started := started c |}.

Definition setLoading (c : component) (b : bool) : component :=
  {| data := data c; fields := fields c; loading := b;
     store := store c; calls := calls c; pending := pending c;
     started := started c |}.

Definition setStore (c : component) (h : heap) : component :=
  {| data := data c; fields := fields c; loading := loading c;
     store := h; calls := calls c; pending := pending c;
     started := started c |}.

Definition call (c : component) (cb : callback) : component :=
  {| data := data c; fields := fields c; loading := loading c;
     store := store c; calls := calls c ++ [cb]; pending := pending c;
     started := started c |}.

(** If the chosen country is one of [missingCountries], ['US'] is used. *)
Definition country (selectedCountry : string) : string :=
  if includes missingCountries selectedCountry then "US" else selectedCountry.

(** The effect runs when [selectedCountry] changes: [fetchData] sets
    [loading] and waits for the provider. *)
Definition startFetch (c : component) (selectedCountry : string) (value_ : ref)
  : component :=
  let c := setLoading c true in
  {| data := data c; fields := fields c; loading := loading c;
     store := store c; calls := calls c;
     pending := pending c
                ++ [(started c, {| fetch_country := country selectedCountry;
                                    fetch_value := value_ |})];
     started := S (started c) |}.

(** The [catch] and [finally] blocks. *)
Definition failed (c : component) : component :=
  setLoading (call c OnLoadError) false.

(** The body of [try] after the [await], for a fulfilled promise. The
    callbacks of the caller are recorded; an exception of [onLoadSuccess]
    is caught and logged, with no effect on the state. What [pick] returns
    is an object, so [wrangleAddressData] does not hand it back unchanged;
    had it done so, [addressFields.map] would throw. *)
Definition applyResponse (c : component) (f : fetch) (response : countryInfo)
  : component :=
  let c := setData c response in
  match wrangleAddressData (Info response) with
  | Ok (FormFields addressFields) =>
      let c := setFields c addressFields in
      match getAddressFieldDifferences (store c) (fetch_value f) addressFields with
      | Ok (h, v) =>
          let c := call (setStore c h) (OnCountryChange v) in
          let c := call c (OnLoadSuccess response addressFields) in
          setLoading c false
      | Throw _ => failed c
      end
  | Ok (Unchanged _) => failed c
  | Throw _ => failed c
  end.

Inductive outcome : Type :=
| Fulfilled (response : countryInfo)
| Rejected.

Inductive event : Type :=
| SelectCountry (selectedCountry : string) (value_ : ref)
| Settle (id : nat) (o : outcome).

Definition findFetch (c : component) (id : nat) : option fetch :=
  option_map snd (find (fun p => (fst p =? id)%nat) (pending c)).

Definition forget (c : component) (id : nat) : component :=
  {| data := data c; fields := fields c; loading := loading c;
     store := store c; calls := calls c;
     pending := filter (fun p => negb (fst p =? id)%nat) (pending c);
     started := started c |}.

(** One event of the event loop. A promise settles once: settling a fetch
    that is not pending changes nothing. *)
Definition step (c : component) (e : event) : component :=
  match e with
  | SelectCountry selectedCountry value_ => startFetch c selectedCountry value_
  | Settle id o =>
      match findFetch c id with
      | None => c
      | Some f =>
          match o with
          | Fulfilled response => applyResponse (forget c id) f response
          | Rejected => failed (forget c id)
          end
      end
  end.

Definition run (c : component) (trace : list event) : component :=
  fold_left step trace c.

End CountryEffect.

Import CountryEffect.

(** ** Two countries and a rapid switch between them *)

Module Scenario.

(** A country with provinces, and one without. *)
Definition responseCA : countryInfo :=
  {| info_formatting :=
       Some {| edit := Some "{firstName}{lastName}_{company}_{address1}_{address2}_{city}{province}{zip}_{country}_{phone}" |};
     info_labels :=
       Some [("address1", "Address"); ("address2", "Apartment, suite, etc.");
             ("city", "City"); ("company", "Company");
             ("country", "Country/region"); ("firstName", "First name");
             ("lastName", "Last name"); ("phone", "Phone");
             ("postalCode", "Postal code"); ("zone", "Province")];
     info_optionalLabels := Some [("address2", "Apartment, suite, etc. (optional)")];
     info_zones := Some [ {| name := "Ontario"; code := "ON" |};
                          {| name := "Quebec"; code := "QC" |} ] |}.

Definition responseDE : countryInfo :=
  {| info_formatting :=
       Some {| edit := Some "{firstName}{lastName}_{company}_{address1}_{address2}_{zip}{city}_{country}_{phone}" |};
     info_labels :=
       Some [("address1", "Street and house number");
             ("address2", "Additional address");
             ("city", "City"); ("company", "Company");
             ("country", "Country/region"); ("firstName", "First name");
             ("lastName", "Last name"); ("phone", "Phone");
             ("postalCode", "Postal code"); ("zone", "Region")];
     info_optionalLabels := Some [("address2", "Additional address (optional)")];
     info_zones := Some [] |}.

Definition fieldsCA : list field :=
  [ {| fieldName := "address1"; fieldLabel := "Address"; fieldInfo := None |};
    {| fieldName := "address2"; fieldLabel := "Apartment, suite, etc.";
       fieldInfo := None |};
    {| fieldName := "city"; fieldLabel := "City"; fieldInfo := None |};
    {| fieldName := "zone"; fieldLabel := "Province";
       fieldInfo := Some [ {| name := "Ontario"; code := "ON" |};
                           {| name := "Quebec"; code := "QC" |} ] |};
    {| fieldName := "postalCode"; fieldLabel := "Postal code"; fieldInfo := None |} ].

Definition fieldsDE : list field :=
  [ {| fieldName := "address1"; fieldLabel := "Street and house number";
       fieldInfo := None |};
    {| fieldName := "address2"; fieldLabel := "Additional address";
       fieldInfo := None |};
    {| fieldName := "postalCode"; fieldLabel := "Postal code"; fieldInfo := None |};
    {| fieldName := "city"; fieldLabel := "City"; fieldInfo := None |} ].

(** The address entered so far, at location 0 of the store. *)
Definition entered : address :=
  [("address1", JStr "1 Main St"); ("zone", JStr "Ontario")].

(** Canada is selected, then Germany before Canada's schema has arrived;
    Germany's schema arrives first, Canada's last. *)
Definition rapidSwitch : list event :=
  [ SelectCountry "CA" (Some 0);
    SelectCountry "DE" (Some 0);
    Settle 1 (Fulfilled responseDE);
    Settle 0 (Fulfilled responseCA) ].

End Scenario.

Import Scenario.

(** ** The specification's wording, for comparison with the code *)

Module SpecWords.

(** The names a resolved field can have: the necessary fields, renamed. *)
Definition fieldKeys : list string := map renameMatch necessaryFields.

(** The tokens of a template that are necessary fields, one per
    occurrence, from left to right. *)
Definition recognizedTokens (template : string) : list string :=
  filter (fun m => includes necessaryFields m) (scanMatches None template).

(** A sequence reduced to the first occurrence of each of its elements. *)
Fixpoint firstOccurrences (l : list string) : list string :=
  match l with
  | [] => []
  | x :: rest => x :: filter (fun y => negb (y =? x)) (firstOccurrences rest)
  end.

(** A template has a match when a letter is directly followed by a word
    character. *)
Definition startsWithWordChar (s : string) : bool :=
  match s with
  | String c _ => isWordChar c
  | EmptyString => false
  end.

(** The shape of a match: a letter, then one word character or more. *)
Fixpoint allWordChars (s : string) : bool :=
  match s with
  | EmptyString => true
  | String c rest => isWordChar c && allWordChars rest
  end.

Definition isMatchShape (m : string) : bool :=
  match m with
  | String c (String d rest) => isLetter c && allWordChars (String d rest)
  | _ => false
  end.

Fixpoint hasMatch (s : string) : bool :=
  match s with
  | EmptyString => false
  | String c rest => (isLetter c && startsWithWordChar rest) || hasMatch rest
  end.

(** "Sorting the keys lexicographically and joining the non-null values
    with a line separator". *)
Definition isNonNull (v : jsval) : bool :=
  match v with
  | JStr _ => true
  | _ => false
  end.

Definition serializeNonNull (a : address) : string :=
  Array_join newline
    (filter isNonNull
       (map (fun k => readKey a k) (Array_sort compareStrings (Object_keys a)))).

(** "Cut to 30 and an ellipsis marker appended". *)
Definition cutTo30 (s marker : string) : string :=
  if (String.length s <=? 30)%nat then s
  else (String.substring 0 30 s ++ marker)%string.

(** "Sorted by label, case-insensitively": labels compared after folding
    upper-case letters to lower case. *)
Definition lowerChar (c : ascii) : ascii :=
  let n := nat_of_ascii c in
  if ((65 <=? n) && (n <=? 90))%nat then ascii_of_nat (n + 32) else c.

Fixpoint lowerCase (s : string) : string :=
  match s with
  | EmptyString => EmptyString
  | String c rest => String (lowerChar c) (lowerCase rest)
  end.

Definition caseInsensitiveLeb (a b : string) : bool :=
  String.leb (lowerCase a) (lowerCase b).

Fixpoint sortedBy {A : Type} (leb : A -> A -> bool) (l : list A) : bool :=
  match l with
  | [] => true
  | x :: rest =>
      match rest with
      | [] => true
      | y :: _ => leb x y && sortedBy leb rest
      end
  end.

End SpecWords.

Import SpecWords.

(** ** The renderers of the fields and the render of the component *)

Module Render.

(** [isNil] of lodash: [null] or [undefined]. *)
Definition isNil (v : jsval) : bool :=
  match v with
  | JStr _ => false
  | _ => true
  end.

(** The option the legacy select of [ZoneSelect] shows:
    [zoneOptions.find(option => option?.value === value) || null]. *)
Definition selectedOption (options : list zoneOption) (value_ : jsval)
  : option zoneOption :=
  find (fun option => strictEqStr (value option) value_) options.

(** What the legacy select hands to [onChange] when the option [v] is
    chosen. *)
Definition chooseOption (name_ : string) (v : zoneOption) : changeEvent :=
  {| target_name := name_; target_value := JStr (value v) |}.

(** [validate] of [FormikLocationFieldRenderer]: a function only for a
    required field; the function returns the message, or [undefined]. *)
Definition validate (required : bool) (label_ : string)
  : option (jsval -> option string) :=
  if required
  then Some (fun value_ =>
               if truthy value_ then None
               else Some (label_ ++ " is required")%string)
  else None.

(** The error the simple renderers show:
    [error || (required && isTouched && isNil(value) ? label + ' is
    required' : undefined)]. *)
Definition shownError (error_ : jsval) (required isTouched : bool)
  (value_ : jsval) (label_ : string) : jsval :=
  if truthy error_ then error_
  else if required && isTouched && isNil value_
       then JStr (label_ ++ " is required")%string
       else JUndefined.

(** The props of [I18nAddressFields] that its render reads. [required] is
    [None] when the prop is not given. *)
Record props : Type := {
  selectedCountry : jsval;
  value_prop : ref;
  required_prop : option bool;
  errors_prop : option (object jsval)
}.

(** The props one [Component] receives. *)
Record rendered : Type := {
  r_name : string;
  r_label : string;
  r_info : option (list zone);
  r_value : jsval;
  r_required : bool;
  r_error : jsval
}.

Inductive view : Type :=
| Nothing
| LoadingPlaceholder
| Fragment (children : list rendered).

(** [required === false ? false
     : !Object.keys(data?.optionalLabels || {}).includes(fieldName)]. *)
Definition isRequired (required : option bool) (data_ : option countryInfo)
  (fieldName_ : string) : bool :=
  match required with
  | Some false => false
  | _ =>
      negb (includes
              (Object_keys
                 (getOr match data_ with
                        | Some d => info_optionalLabels d
                        | None => None
                        end []))
              fieldName_)
  end.

(** [o?.[k]]. *)
Definition readOptional (o : option (object jsval)) (k : string) : jsval :=
  match o with
  | Some a => readKey a k
  | None => JUndefined
  end.

Definition renderField (c : component) (p : props) (f : field) : rendered :=
  {| r_name := fieldName f;
     r_label := fieldLabel f;
     r_info := fieldInfo f;
     r_value := readOptional (load (store c) (value_prop p)) (fieldName f);
     r_required := isRequired (required_prop p) (data c) (fieldName f);
     r_error := readOptional (errors_prop p) (fieldName f) |}.

(** The render of [I18nAddressFields]. *)
Definition render (c : component) (p : props) : view :=
  if negb (truthy (selectedCountry p)) then Nothing
  else
    match fields c with
    | Some fs => if loading c then LoadingPlaceholder
                 else Fragment (map (renderField c p) fs)
    | None => LoadingPlaceholder
    end.

(** The [onChange] given to every [Component]:
    [onCountryChange(set(cloneDeep(value || {}), name, fieldValue))], for a
    name that is a plain property name. The clone is a new object. *)
Definition fieldChange (h : heap) (value_ : ref) (e : changeEvent)
  : heap * ref :=
  alloc h (setOwn (getOr (load h value_) []) (target_name e) (target_value e)).

End Render.

Import Render.

(** ** The location input: the caller of the address fields *)

Module LocationInput.

Definition isComma (c : ascii) : bool := (nat_of_ascii c =? 44)%nat.
Definition isSpace (c : ascii) : bool := (nat_of_ascii c =? 32)%nat.

(** [s.split(', ')], read from left to right. [cur] is the piece being
    read, and [comma] tells that a comma was the last character read, which
    belongs to the piece unless a space follows. *)
Fixpoint splitScan (cur : string) (comma : bool) (s : string) : list string :=
  match s with
  | EmptyString => [if comma then (cur ++ ",")%string else cur]
  | String d rest =>
      if comma then
        if isSpace d then cur :: splitScan EmptyString false rest
        else if isComma d then splitScan (cur ++ ",")%string true rest
        else splitScan (cur ++ String "," (String d EmptyString))%string false rest
      else if isComma d then splitScan cur true rest
      else splitScan (cur ++ String d EmptyString)%string false rest
  end.

Definition split_commaSpace (s : string) : list string :=
  splitScan EmptyString false s.

(** [address.split(', ').slice(0, -1).join(', ')]. *)
Definition removeCountryFromAddress (address_ : string) : string :=
  String.concat ", " (removelast (split_commaSpace address_)).

(** Whether [", "] occurs in a string. *)
Definition startsWithSpace (s : string) : bool :=
  match s with
  | String c _ => isSpace c
  | EmptyString => false
  end.

Fixpoint hasCommaSpace (s : string) : bool :=
  match s with
  | EmptyString => false
  | String c rest => (isComma c && startsWithSpace rest) || hasCommaSpace rest
  end.

(** The characters that [.] does not match: the line feed and the carriage
    return (the two other line terminators are not ASCII characters). *)
Definition isLineTerminator (c : ascii) : bool :=
  ((nat_of_ascii c =? 10) || (nat_of_ascii c =? 13))%nat.

Definition startsOnLine (s : string) : bool :=
  match s with
  | String c _ => negb (isLineTerminator c)
  | EmptyString => false
  end.

(** What is left of a string after the characters [.+] takes. *)
Fixpoint skipLine (s : string) : string :=
  match s with
  | EmptyString => EmptyString
  | String c rest => if isLineTerminator c then s else skipLine rest
  end.

(** [label.replace(/,.+/, '')]: the first comma that is followed by a
    character of the same line is removed with the rest of the line. *)
Fixpoint replaceCommaRest (s : string) : string :=
  match s with
  | EmptyString => EmptyString
  | String c rest =>
      if isComma c && startsOnLine rest then skipLine rest
      else String c (replaceCommaRest rest)
  end.

(** [value.label && value.label.replace(/,.+/, '')]. *)
Definition locationName (label_ : jsval) : jsval :=
  match label_ with
  | JStr l => if l =? "" then label_ else JStr (replaceCommaRest l)
  | _ => label_
  end.

(** A location as [UserLocationInput] reads it; [None] is a property that is
    missing or [null]. *)
Record location : Type := {
  loc_country : jsval;
  loc_address : jsval;
  loc_structured : ref
}.

Inductive userView : Type :=
| StructuredFields (value_ : ref)
| LoadFailedMessage
| RawAddress.

(** [location?.structured || {}], the [value] given to the address fields:
    a new empty object when there is no structured address. *)
Definition structuredValue (h : heap) (l : option location) : heap * ref :=
  match l with
  | Some loc =>
      match loc_structured loc with
      | Some r => (h, Some r)
      | None => alloc h []
      end
  | None => alloc h []
  end.

Definition forceLegacyFormat (l : option location) : bool :=
  match l with
  | Some loc =>
      match loc_structured loc with
      | Some _ => false
      | None => truthy (loc_address loc)
      end
  | None => false
  end.

Definition hasCountry (l : option location) : bool :=
  match l with
  | Some loc => truthy (loc_country loc)
  | None => false
  end.

(** What [UserLocationInput] shows below the country. *)
Definition userLocationView (h : heap) (l : option location) (useFallback : bool)
  : heap * userView :=
  if hasCountry l && negb useFallback && negb (forceLegacyFormat l)
  then let (h', v) := structuredValue h l in (h', StructuredFields v)
  else if useFallback then (h, LoadFailedMessage)
  else (h, RawAddress).

(** The handlers of [UserLocationInput]: what they pass to [onChange].
    [pick] keeps the listed properties only. *)
Definition pickCountry (l : option location) (country_ : jsval) : location :=
  {| loc_country := country_; loc_address := JUndefined; loc_structured := None |}.

Definition pickStructured (l : option location) (structured : ref) : location :=
  {| loc_country := match l with
                    | Some loc => loc_country loc
                    | None => JNull
                    end;
     loc_address := JUndefined;
     loc_structured := structured |}.

End LocationInput.

Import LocationInput.

(** ** The list of tags *)

Module Tags.

(** [tagList.slice(0, limit)]: the tags shown. *)
Definition shownTags (tags : list string) (limit : nat) : list string :=
  firstn limit tags.

(** The tag that stands for the others, when [tagList.length > limit]: its
    title, [tagList.slice(limit).join(', ')], and its count. *)
Definition moreTag (tags : list string) (limit : nat) : option (string * nat) :=
  if (limit <? List.length tags)%nat
  then Some (String.concat ", " (skipn limit tags), List.length tags - limit)
  else None.

End Tags.

Import Tags.

(** ** The attributes of a form field, read from its schema *)

Module FormikField.

(** A schema type as the form code reads it: the [typeName] and the
    [innerType] of its [_def], the [options] of a union, and the bounds of a
    string or a number. [None] is a property that is [undefined]; a bound
    that is present may hold no number. *)
#[local] Unset Elimination Schemes.
Inductive zodType : Type :=
| Zod (typeName_ : string) (innerType_ : option zodType)
    (options_ : option (list zodType))
    (minLength_ maxLength_ min_ max_ : option (option Z)).
#[local] Set Elimination Schemes.

Definition typeName (t : zodType) : string :=
  match t with Zod n _ _ _ _ _ _ => n end.
Definition innerType (t : zodType) : option zodType :=
  match t with Zod _ i _ _ _ _ _ => i end.
Definition options (t : zodType) : option (list zodType) :=
  match t with Zod _ _ o _ _ _ _ => o end.

Definition isOptionalField (type_ : zodType) : bool :=
  includes ["ZodOptional"; "ZodNullable"] (typeName type_).

(** The recursion follows [_def.innerType]; reading [_def] of a missing
    inner type throws. *)
Fixpoint getTypeFromOptionalField (field_ : zodType) : result zodType :=
  match field_ with
  | Zod n inner _ _ _ _ _ =>
      if includes ["ZodOptional"; "ZodNullable"] n
      then match inner with
           | Some i => getTypeFromOptionalField i
           | None => Throw TypeError
           end
      else Ok field_
  end.







End FormikField.

Import FormikField.

(** ** Kinds of events *)

Module Traces.

(** The arrival of a response, as opposed to a selection or a rejection. *)
Definition isFulfilled (e : event) : bool :=
  match e with
  | Settle _ (Fulfilled _) => true
  | _ => false
  end.

End Traces.

Import Traces.

(** ** Facts about the JavaScript fragment *)

Section SortFacts.
Context {A : Type} (cmp : A -> A -> Z).

Lemma insertSorted_perm (x : A) (l : list A) :
  Permutation (x :: l) (insertSorted cmp x l).
Proof.
  induction l as [|y rest IH]; simpl.
  - apply Permutation_refl.
  - destruct (cmp x y <=? 0)%Z.
    + apply Permutation_refl.
    + eapply perm_trans; [apply perm_swap|]. now apply perm_skip.
Qed.

Lemma Array_sort_perm (l : list A) : Permutation l (Array_sort cmp l).
Proof.
  induction l as [|x rest IH]; simpl.
  - constructor.
  - eapply perm_trans; [apply perm_skip, IH|]. apply insertSorted_perm.
Qed.

Lemma Array_sort_In (l : list A) (x : A) : In x (Array_sort cmp l) <-> In x l.
Proof.
  split; apply Permutation_in;
    [apply Permutation_sym|]; apply Array_sort_perm.
Qed.

Hypothesis cmp_total : forall x y, (cmp x y <= 0 \/ cmp y x <= 0)%Z.
Hypothesis cmp_trans :
  forall x y z, (cmp x y <= 0 -> cmp y z <= 0 -> cmp x z <= 0)%Z.

Lemma insertSorted_sorted (x : A) (l : list A) :
  StronglySorted (before cmp) l -> StronglySorted (before cmp) (insertSorted cmp x l).
Proof.
  induction 1 as [|y rest Hrest IH Hy]; simpl.
  - repeat constructor.
  - destruct (Z.leb_spec (cmp x y) 0) as [Hle|Hgt].
    + constructor; [now constructor|].
      constructor; [exact Hle|].
      rewrite Forall_forall in Hy |- *. intros z Hz.
      eapply cmp_trans; [exact Hle|]. now apply Hy.
    + constructor; [exact IH|].
      rewrite Forall_forall in Hy |- *. intros z Hz.
      apply (Permutation_in _ (Permutation_sym (insertSorted_perm x rest))) in Hz.
      destruct Hz as [<-|Hz]; [|now apply Hy].
      destruct (cmp_total y x) as [H|H]; [exact H|unfold before; lia].
Qed.

Lemma Array_sort_sorted (l : list A) : StronglySorted (before cmp) (Array_sort cmp l).
Proof.
  induction l as [|x rest IH]; simpl.
  - constructor.
  - now apply insertSorted_sorted.
Qed.

(** A list that is already in order is left as it is. *)
Lemma Array_sort_id (l : list A) :
  StronglySorted (before cmp) l -> Array_sort cmp l = l.
Proof.
  induction 1 as [|x rest Hrest IH Hx]; simpl; [reflexivity|].
  rewrite IH. destruct rest as [|y rest']; simpl; [reflexivity|].
  inversion Hx as [|? ? Hxy _]; subst.
  destruct (Z.leb_spec (cmp x y) 0); [reflexivity|unfold before in Hxy; lia].
Qed.
End SortFacts.

(** Two arrangements of the same elements that are both in order are the same
    list, when the order separates the elements. *)
Lemma sorted_perm_eq {A : Type} (R : A -> A -> Prop) (l1 l2 : list A) :
  (forall x y, In x l1 -> In y l1 -> R x y -> R y x -> x = y) ->
  StronglySorted R l1 -> StronglySorted R l2 -> Permutation l1 l2 -> l1 = l2.
Proof.
  revert l2. induction l1 as [|a t1 IH]; intros l2 Hanti S1 S2 P.
  - now apply Permutation_nil in P.
  - destruct l2 as [|b t2].
    + apply Permutation_sym, Permutation_nil in P. discriminate.
    + inversion S1 as [|? ? S1' F1]; inversion S2 as [|? ? S2' F2]; subst.
      rewrite Forall_forall in F1, F2.
      assert (Hab : a = b).
      { assert (Ha : In a (b :: t2))
          by (eapply Permutation_in; [exact P|now left]).
        assert (Hb : In b (a :: t1))
          by (eapply Permutation_in; [apply Permutation_sym, P|now left]).
        destruct Ha as [Ha|Ha]; [now symmetry|].
        destruct Hb as [Hb|Hb]; [exact Hb|].
        apply Hanti; [now left|now right|now apply F1|now apply F2]. }
      subst b. f_equal.
      apply IH; auto.
      * intros x y Hx Hy. apply Hanti; now right.
      * now apply Permutation_cons_inv in P.
Qed.

(** The order of strings. *)
Lemma compareStrings_le (a b : string) :
  (compareStrings a b <= 0)%Z <-> String.compare a b <> Gt.
Proof.
  unfold compareStrings. destruct (String.compare a b); split; intros H;
    try lia; try discriminate; congruence.
Qed.

Lemma compareStrings_total (a b : string) :
  (compareStrings a b <= 0 \/ compareStrings b a <= 0)%Z.
Proof.
  rewrite !compareStrings_le, (String.compare_antisym b a).
  destruct (String.compare a b); simpl; [left|left|right]; discriminate.
Qed.

Lemma compareStrings_trans (a b c : string) :
  (compareStrings a b <= 0 -> compareStrings b c <= 0 ->
   compareStrings a c <= 0)%Z.
Proof.
  rewrite !compareStrings_le. intros Hab Hbc Hac.
  assert (Hca : String_as_OT.lt c a).
  { apply String_as_OT.cmp_lt. rewrite String_as_OT.cmp_antisym.
    unfold String_as_OT.cmp. now rewrite Hac. }
  destruct (String.compare a b) eqn:Eab; [| |congruence].
  - apply String.compare_eq_iff in Eab. subst b.
    apply String_as_OT.cmp_lt in Hca. rewrite String_as_OT.cmp_antisym in Hca.
    unfold String_as_OT.cmp in *. destruct (String.compare a c); simpl in *; congruence.
  - assert (Hcb : String_as_OT.lt c b).
    { eapply String_as_OT.lt_trans; [exact Hca|].
      now apply String_as_OT.cmp_lt. }
    apply String_as_OT.cmp_lt in Hcb. rewrite String_as_OT.cmp_antisym in Hcb.
    unfold String_as_OT.cmp in *. destruct (String.compare b c); simpl in *; congruence.
Qed.

Lemma compareStrings_antisym (a b : string) :
  (compareStrings a b <= 0 -> compareStrings b a <= 0 -> a = b)%Z.
Proof.
  rewrite !compareStrings_le, (String.compare_antisym b a). intros Hab Hba.
  apply String.compare_eq_iff.
  destruct (String.compare a b); simpl in *; congruence.
Qed.

(** Reading and writing properties. *)
Lemma getOwn_Some_In {V : Type} (o : object V) (k : string) (v : V) :
  getOwn o k = Some v -> In (k, v) o.
Proof.
  induction o as [|[k' v'] rest IH]; simpl; [discriminate|].
  destruct (String.eqb_spec k k') as [->|Hne].
  - intros [= ->]. now left.
  - intros H. right. now apply IH.
Qed.

Lemma getOwn_None {V : Type} (o : object V) (k : string) :
  getOwn o k = None <-> ~ In k (Object_keys o).
Proof.
  induction o as [|[k' v'] rest IH]; simpl; [tauto|].
  destruct (String.eqb_spec k k') as [->|Hne].
  - split; [discriminate|]. intros H. exfalso. apply H. now left.
  - rewrite IH. split; intros H; [intros [E|E]; [congruence|tauto]|tauto].
Qed.

Lemma getOwn_In {V : Type} (o : object V) (k : string) (v : V) :
  NoDup (Object_keys o) -> In (k, v) o -> getOwn o k = Some v.
Proof.
  induction o as [|[k' v'] rest IH]; simpl; [tauto|].
  intros Hnd [E|Hin].
  - injection E as -> ->. now rewrite String.eqb_refl.
  - inversion Hnd as [|? ? Hk' Hrest]; subst.
    destruct (String.eqb_spec k k') as [->|Hne].
    + exfalso. apply Hk'. change k' with (fst (k', v)). now apply in_map.
    + now apply IH.
Qed.

Lemma includes_In (l : list string) (x : string) :
  includes l x = true <-> In x l.
Proof.
  unfold includes. rewrite existsb_exists. split.
  - intros [y [Hy E]]. apply String.eqb_eq in E. now subst.
  - intros H. exists x. split; [exact H|apply String.eqb_refl].
Qed.

Lemma getOwn_setOwn {V : Type} (o : object V) (k k' : string) (v : V) :
  getOwn (setOwn o k v) k' = if k' =? k then Some v else getOwn o k'.
Proof.
  induction o as [|[k0 v0] rest IH]; simpl.
  - reflexivity.
  - destruct (String.eqb_spec k k0) as [->|Hne]; simpl.
    + destruct (String.eqb_spec k' k0); reflexivity.
    + rewrite IH. destruct (String.eqb_spec k' k0) as [->|Hne'].
      * destruct (String.eqb_spec k0 k); [congruence|reflexivity].
      * reflexivity.
Qed.

Lemma setOwn_keys {V : Type} (o : object V) (k : string) (v : V) :
  Object_keys (setOwn o k v)
  = if includes (Object_keys o) k then Object_keys o else Object_keys o ++ [k].
Proof.
  induction o as [|[k0 v0] rest IH]; simpl; [reflexivity|].
  unfold includes in *. simpl.
  destruct (String.eqb_spec k k0) as [->|Hne]; simpl; [reflexivity|].
  rewrite IH. now destruct (existsb (String.eqb k) (Object_keys rest)).
Qed.

Lemma setOwn_NoDup {V : Type} (o : object V) (k : string) (v : V) :
  NoDup (Object_keys o) -> NoDup (Object_keys (setOwn o k v)).
Proof.
  intros Hnd. rewrite setOwn_keys.
  destruct (includes (Object_keys o) k) eqn:E; [exact Hnd|].
  apply NoDup_app; [exact Hnd|repeat constructor; simpl; tauto|].
  intros x Hx [<-|[]]. apply includes_In in Hx. congruence.
Qed.

(** ** [pick] and [getAddressFieldDifferences] *)

Lemma pick_step_getOwn {V : Type} (o : object V) (paths : list string)
  (acc : object V) (k : string) :
  getOwn
    (fold_left
       (fun result path =>
          match getOwn o path with
          | Some v => setOwn result path v
          | None => result
          end) paths acc) k
  = if includes paths k
    then match getOwn o k with Some v => Some v | None => getOwn acc k end
    else getOwn acc k.
Proof.
  revert acc. induction paths as [|p ps IH]; intros acc; simpl; [reflexivity|].
  rewrite IH. unfold includes. simpl.
  destruct (String.eqb_spec k p) as [->|Hne]; simpl.
  - destruct (getOwn o p) as [v|] eqn:E.
    + rewrite getOwn_setOwn, String.eqb_refl.
      now destruct (existsb (String.eqb p) ps).
    + now destruct (existsb (String.eqb p) ps).
  - destruct (getOwn o p) as [v|] eqn:E; [|reflexivity].
    rewrite getOwn_setOwn.
    destruct (String.eqb_spec k p); [congruence|reflexivity].
Qed.

(** A picked object has the property [k] exactly when the source has it and
    [k] is one of the paths, and then with the same value. *)
Lemma pick_getOwn {V : Type} (o : object V) (paths : list string) (k : string) :
  getOwn (pick o paths) k = if includes paths k then getOwn o k else None.
Proof.
  unfold pick. rewrite pick_step_getOwn. simpl.
  destruct (includes paths k); [|reflexivity]. now destruct (getOwn o k).
Qed.

Lemma pick_NoDup {V : Type} (o : object V) (paths : list string) :
  NoDup (Object_keys (pick o paths)).
Proof.
  unfold pick.
  assert (H : forall acc : object V, NoDup (Object_keys acc) ->
            NoDup (Object_keys
                     (fold_left
                        (fun result path =>
                           match getOwn o path with
                           | Some v => setOwn result path v
                           | None => result
                           end) paths acc))).
  { induction paths as [|p ps IH]; intros acc Hacc; simpl; [exact Hacc|].
    apply IH. destruct (getOwn o p); [now apply setOwn_NoDup|exact Hacc]. }
  apply H. constructor.
Qed.

Lemma In_keys_getOwn {V : Type} (o : object V) (k : string) :
  In k (Object_keys o) <-> getOwn o k <> None.
Proof.
  rewrite getOwn_None. split; [tauto|].
  intros H. destruct (in_dec string_dec k (Object_keys o)); tauto.
Qed.

Lemma differenceInAddressFields_true (a : address) (names : list string) :
  differenceInAddressFields a names = true
  <-> exists k, In k (Object_keys a) /\ ~ In k names.
Proof.
  unfold differenceInAddressFields.
  destruct (filter (fun key => negb (includes names key)) (Object_keys a))
    as [|k rest] eqn:E; simpl.
  - split; [discriminate|]. intros [k [Hk Hn]].
    assert (Hin : In k (filter (fun key => negb (includes names key)) (Object_keys a))).
    { apply filter_In. split; [exact Hk|].
      destruct (includes names k) eqn:Ei; [|reflexivity].
      apply includes_In in Ei. tauto. }
    rewrite E in Hin. destruct Hin.
  - split; [intros _|reflexivity].
    assert (Hin : In k (filter (fun key => negb (includes names key)) (Object_keys a)))
      by (rewrite E; now left).
    apply filter_In in Hin. destruct Hin as [Hk Hn]. exists k. split; [exact Hk|].
    intros Hc. apply includes_In in Hc. rewrite Hc in Hn. discriminate.
Qed.

Lemma differenceInAddressFields_false (a : address) (names : list string) :
  differenceInAddressFields a names = false
  <-> forall k, In k (Object_keys a) -> In k names.
Proof.
  split.
  - intros H k Hk. destruct (in_dec string_dec k names) as [Hin|Hout]; [exact Hin|].
    assert (Ht : differenceInAddressFields a names = true)
      by (apply differenceInAddressFields_true; eauto).
    congruence.
  - intros H. destruct (differenceInAddressFields a names) eqn:E; [|reflexivity].
    apply differenceInAddressFields_true in E. destruct E as [k [Hk Hn]].
    exfalso. auto.
Qed.

(** C3. Reconciling a stored address against resolved fields succeeds and
    leaves every stored object as it was. If the address has a key that is
    not a field, the result is a newly allocated object, holding exactly the
    keys of the address that are fields, each with its value. If it has no
    such key, the result is the very reference passed in, the store is
    untouched, and the serialization is therefore the same. *)
Theorem reconcile_prunes_or_returns_same
  (h : heap) (l : nat) (a : address) (addressFields : list field) :
  nth_error h l = Some a ->
  NoDup (Object_keys a) ->
  Forall (fun f => In (fieldName f) fieldKeys) addressFields ->
  exists h' r,
    getAddressFieldDifferences h (Some l) addressFields = Ok (h', r)
    /\ (forall l0 a0, nth_error h l0 = Some a0 -> nth_error h' l0 = Some a0)
    /\ ((exists k, In k (Object_keys a) /\ ~ In k (map fieldName addressFields)) ->
        r = Some (List.length h) /\ r <> Some l /\
        exists a', load h' r = Some a'
          /\ NoDup (Object_keys a')
          /\ (forall k, In k (Object_keys a') <->
                        In k (Object_keys a) /\ In k (map fieldName addressFields))
          /\ (forall k, In k (Object_keys a') -> getOwn a' k = getOwn a k))
    /\ ((forall k, In k (Object_keys a) -> In k (map fieldName addressFields)) ->
        h' = h /\ r = Some l
        /\ serializeAddress (load h' r) = serializeAddress (Some a)).
Proof.
  intros Hl Hnd _.
  assert (Hlt : l < List.length h) by (apply nth_error_Some; congruence).
  unfold getAddressFieldDifferences. simpl. rewrite Hl. simpl.
  destruct (differenceInAddressFields a (map fieldName addressFields)) eqn:E.
  - eexists _, _. split; [reflexivity|]. split; [|split].
    + intros l0 a0 H0. rewrite nth_error_app1; [exact H0|].
      apply nth_error_Some. congruence.
    + intros _. split; [reflexivity|]. split; [intros [= Heq]; lia|].
      exists (pick a (map fieldName addressFields)). split; [|split; [|split]].
      * simpl. rewrite nth_error_app2, Nat.sub_diag by lia. reflexivity.
      * apply pick_NoDup.
      * intros k. rewrite !In_keys_getOwn, pick_getOwn, <- includes_In.
        destruct (includes (map fieldName addressFields) k); split;
          intros H; try tauto; try (destruct H; congruence).
      * intros k. rewrite In_keys_getOwn, pick_getOwn.
        destruct (includes (map fieldName addressFields) k); congruence.
    + intros Hall. apply differenceInAddressFields_false in Hall. congruence.
  - eexists _, _. split; [reflexivity|]. split; [|split].
    + auto.
    + intros Hex. apply differenceInAddressFields_true in Hex. congruence.
    + intros _. split; [reflexivity|]. split; [reflexivity|].
      simpl. now rewrite Hl.
Qed.

Lemma reconcile_prunes_or_returns_same_witness :
  exists h' r,
    getAddressFieldDifferences
      [[("address1", JStr "1 Main St"); ("zone", JStr "California")]] (Some 0)
      [ {| fieldName := "address1"; fieldLabel := "Address"; fieldInfo := None |};
        {| fieldName := "city"; fieldLabel := "City"; fieldInfo := None |} ]
    = Ok (h', r)
    /\ r = Some 1
    /\ load h' r = Some [("address1", JStr "1 Main St")].
Proof.
  destruct (reconcile_prunes_or_returns_same
              [[("address1", JStr "1 Main St"); ("zone", JStr "California")]] 0
              [("address1", JStr "1 Main St"); ("zone", JStr "California")]
              [ {| fieldName := "address1"; fieldLabel := "Address"; fieldInfo := None |};
                {| fieldName := "city"; fieldLabel := "City"; fieldInfo := None |} ])
    as [h' [r [Hrun _]]].
  - reflexivity.
  - repeat constructor; simpl; intuition discriminate.
  - repeat constructor; simpl; tauto.
  - exists h', r. split; [exact Hrun|].
    vm_compute in Hrun. injection Hrun as <- <-. split; reflexivity.
Defined.

(** C4. On a [null] or missing previous value, [Object.keys] throws: the
    reconciliation raises a [TypeError] instead of returning [{}]. In
    [fetchData] the exception reaches the [catch] block, so a country that
    loaded correctly is reported through [onLoadError]. An empty object, in
    contrast, is returned as it is. *)
Theorem reconcile_null_throws (h : heap) (addressFields : list field) :
  getAddressFieldDifferences h None addressFields = Throw TypeError
  /\ getAddressFieldDifferences (h ++ [[]]) (Some (List.length h)) addressFields
     = Ok (h ++ [[]], Some (List.length h)).
Proof.
  split; [reflexivity|].
  unfold getAddressFieldDifferences. simpl.
  rewrite nth_error_app2, Nat.sub_diag by lia. reflexivity.
Qed.

(** ** [serializeAddress] *)

Lemma leb_compareStrings (a b : string) :
  String.leb a b = true <-> (compareStrings a b <= 0)%Z.
Proof.
  rewrite compareStrings_le. unfold String.leb.
  destruct (String.compare a b); split; congruence.
Qed.

Lemma sort_strings_sorted (l : list string) :
  StronglySorted (fun x y => String.leb x y = true) (Array_sort compareStrings l).
Proof.
  pose proof (Array_sort_sorted compareStrings compareStrings_total
                compareStrings_trans l) as H.
  induction H as [|x rest Hrest IH Hx]; constructor; [exact IH|].
  eapply Forall_impl; [|exact Hx]. intros y Hy. now apply leb_compareStrings.
Qed.

(** Sorting strings forgets the order they came in. *)
Lemma sort_strings_perm (l1 l2 : list string) :
  Permutation l1 l2 ->
  Array_sort compareStrings l1 = Array_sort compareStrings l2.
Proof.
  intros P. apply (sorted_perm_eq (before compareStrings)).
  - intros x y _ _. apply compareStrings_antisym.
  - apply Array_sort_sorted; [apply compareStrings_total|apply compareStrings_trans].
  - apply Array_sort_sorted; [apply compareStrings_total|apply compareStrings_trans].
  - eapply perm_trans; [apply Permutation_sym, Array_sort_perm|].
    eapply perm_trans; [exact P|apply Array_sort_perm].
Qed.

Lemma getOwn_perm {V : Type} (a b : object V) (k : string) :
  NoDup (Object_keys a) -> Permutation a b -> getOwn a k = getOwn b k.
Proof.
  intros Hnd P.
  assert (Pk : Permutation (Object_keys a) (Object_keys b))
    by (now apply Permutation_map).
  assert (Hndb : NoDup (Object_keys b)) by (eapply Permutation_NoDup; eauto).
  destruct (getOwn a k) as [v|] eqn:E.
  - symmetry. apply getOwn_In; [exact Hndb|].
    eapply Permutation_in; [exact P|]. now apply getOwn_Some_In.
  - symmetry. apply getOwn_None. apply getOwn_None in E. intros Hin. apply E.
    eapply Permutation_in; [apply Permutation_sym, Pk|exact Hin].
Qed.

(** C9, as the code has it. The serialization joins, with a line feed, the
    values of all keys taken in sorted order; a [null] or missing value is
    written as the empty string and keeps its separator. It does not depend
    on the order in which the keys were inserted. *)
Theorem serializeAddress_sorted_keys (a : address) :
  NoDup (Object_keys a) ->
  exists keys,
    Permutation (Object_keys a) keys
    /\ StronglySorted (fun x y => String.leb x y = true) keys
    /\ serializeAddress (Some a)
       = Ok (String.concat newline (map (fun k => joinItem (readKey a k)) keys))
    /\ forall b, Permutation a b ->
                 serializeAddress (Some b) = serializeAddress (Some a).
Proof.
  intros Hnd. exists (Array_sort compareStrings (Object_keys a)).
  split; [apply Array_sort_perm|]. split; [apply sort_strings_sorted|]. split.
  - unfold serializeAddress, Array_join. simpl. now rewrite map_map.
  - intros b P. unfold serializeAddress. simpl. do 2 f_equal.
    rewrite (sort_strings_perm (Object_keys b) (Object_keys a))
      by (apply Permutation_sym; now apply Permutation_map).
    apply map_ext. intros k. unfold readKey.
    now rewrite (getOwn_perm a b k Hnd P).
Qed.

Lemma serializeAddress_sorted_keys_witness :
  serializeAddress (Some [("city", JStr "Paris"); ("address1", JStr "1 rue A")])
  = serializeAddress (Some [("address1", JStr "1 rue A"); ("city", JStr "Paris")]).
Proof.
  destruct (serializeAddress_sorted_keys
              [("address1", JStr "1 rue A"); ("city", JStr "Paris")])
    as [keys [_ [_ [_ Horder]]]].
  - repeat constructor; simpl; intuition discriminate.
  - apply Horder. apply perm_swap.
Defined.

(** C9, against the wording: a [null] value is not left out of the joined
    string; its (empty) line is kept. *)
Lemma serializeAddress_keeps_null_lines :
  serializeAddress (Some [("address1", JNull); ("city", JStr "Paris")])
  = Ok (newline ++ "Paris")%string
  /\ serializeNonNull [("address1", JNull); ("city", JStr "Paris")] = "Paris"
  /\ serializeAddress (Some [("address1", JNull); ("city", JStr "Paris")])
     <> Ok (serializeNonNull [("address1", JNull); ("city", JStr "Paris")]).
Proof.
  split; [reflexivity|]. split; [reflexivity|]. vm_compute. discriminate.
Qed.

(** ** [ZoneSelect]: the options *)

Lemma length_append (s1 s2 : string) :
  String.length (s1 ++ s2)%string = String.length s1 + String.length s2.
Proof. induction s1 as [|c s1 IH]; simpl; [reflexivity|now rewrite IH]. Qed.

Lemma length_substring_0 (n : nat) (s : string) :
  n <= String.length s -> String.length (String.substring 0 n s) = n.
Proof.
  revert s. induction n as [|n IH]; intros s Hn.
  - destruct s; reflexivity.
  - destruct s as [|c s]; simpl in *; [lia|]. rewrite IH; lia.
Qed.

(** What [truncate(name, { length: 30 })] shows: a name of more than 30
    characters keeps its first 27, followed by the three dots. *)
Lemma truncate_30 (s : string) :
  truncate s 30
  = if (String.length s <=? 30)%nat then s
    else (String.substring 0 27 s ++ "...")%string.
Proof. unfold truncate. now destruct (String.length s <=? 30)%nat. Qed.

Lemma truncate_30_length (s : string) :
  String.length (truncate s 30) <= 30
  /\ (30 < String.length s -> String.length (truncate s 30) = 30).
Proof.
  rewrite truncate_30. destruct (Nat.leb_spec (String.length s) 30) as [H|H].
  - split; lia.
  - rewrite length_append, length_substring_0 by lia. simpl. split; lia.
Qed.

Lemma compareStrings_refl (a : string) : compareStrings a a = 0%Z.
Proof.
  unfold compareStrings.
  assert (H : String.compare a a = Eq) by (now apply String_as_OT.cmp_eq).
  now rewrite H.
Qed.

Lemma orderBy_perm {A : Type} (l : list A) (f : A -> string) :
  Permutation l (orderBy l f).
Proof. apply Array_sort_perm. Qed.

Lemma orderBy_sorted {A : Type} (l : list A) (f : A -> string) :
  StronglySorted (fun x y => String.leb (f x) (f y) = true) (orderBy l f).
Proof.
  unfold orderBy.
  pose proof (Array_sort_sorted (fun a b => compareStrings (f a) (f b))
                (fun x y => compareStrings_total (f x) (f y))
                (fun x y z => compareStrings_trans (f x) (f y) (f z)) l) as H.
  induction H as [|x rest Hrest IH Hx]; constructor; [exact IH|].
  eapply Forall_impl; [|exact Hx]. intros y Hy. now apply leb_compareStrings.
Qed.

Lemma insertSorted_filter_key {A : Type} (f : A -> string) (k : string)
  (x : A) (l : list A) :
  filter (fun y => f y =? k)
    (insertSorted (fun a b => compareStrings (f a) (f b)) x l)
  = filter (fun y => f y =? k) (x :: l).
Proof.
  induction l as [|y t IHt]; [reflexivity|].
  cbn [insertSorted].
  destruct (Z.leb_spec (compareStrings (f x) (f y)) 0) as [Hle|Hgt]; [reflexivity|].
  cbn [filter] in *. rewrite IHt.
  destruct (String.eqb_spec (f x) k) as [Ex|Ex];
    destruct (String.eqb_spec (f y) k) as [Ey|Ey]; try reflexivity.
  rewrite Ex, Ey, compareStrings_refl in Hgt. lia.
Qed.

(** The sort is stable: the elements that share a sort key stay in the order
    of the input. *)
Lemma orderBy_stable {A : Type} (l : list A) (f : A -> string) (k : string) :
  filter (fun x => f x =? k) (orderBy l f) = filter (fun x => f x =? k) l.
Proof.
  unfold orderBy. induction l as [|x rest IH]; [reflexivity|].
  cbn [Array_sort fold_right]. rewrite insertSorted_filter_key.
  cbn [filter]. unfold Array_sort in IH. now rewrite IH.
Qed.

(** C6, as the code has it. Every option is built from one zone: its value
    is the name of the zone and its label is the shown name, [" - "] and the
    code, where a name of more than 30 characters is shown as its first 27
    characters and three dots, 30 characters in all. The options are built
    first and sorted on the label afterwards, in ascending order. *)
Theorem zoneOptions_labels_then_sorted (info : list zone) :
  Permutation (map buildZoneOption info) (zoneOptions (Some info))
  /\ StronglySorted (fun o1 o2 => String.leb (label o1) (label o2) = true)
       (zoneOptions (Some info))
  /\ forall z,
       value (buildZoneOption z) = name z
       /\ label (buildZoneOption z)
          = ((if (String.length (name z) <=? 30)%nat then name z
              else String.substring 0 27 (name z) ++ "...")
             ++ " - " ++ code z)%string
       /\ String.length (truncate (name z) 30) <= 30.
Proof.
  split; [apply orderBy_perm|]. split; [apply orderBy_sorted|].
  intros z. split; [reflexivity|]. split.
  - unfold buildZoneOption. simpl. now rewrite truncate_30.
  - apply truncate_30_length.
Qed.

(** C6, against the wording: a name of 40 characters is not shown as its
    first 30 characters and a marker; only 27 characters of it are kept. *)
Lemma zone_label_keeps_27_characters :
  label (buildZoneOption
           {| name := "Dadra and Nagar Haveli and Daman and Diu"; code := "DH" |})
  = "Dadra and Nagar Haveli and ... - DH"
  /\ ~ exists marker : string,
         label (buildZoneOption
                  {| name := "Dadra and Nagar Haveli and Daman and Diu";
                     code := "DH" |})
         = (cutTo30 "Dadra and Nagar Haveli and Daman and Diu" marker
            ++ " - " ++ "DH")%string.
Proof.
  split; [reflexivity|]. intros [marker H]. vm_compute in H. discriminate H.
Qed.

(** C7, as the code has it. The options are in ascending order of their
    labels compared by character code, so an upper-case letter sorts before
    every lower-case one. Each built option is kept, repeated ones included,
    and options with the same label stay in input order. The list is a
    function of the input, and sorting it again changes nothing. *)
Theorem zoneOptions_sorted_by_code_unit (info : option (list zone)) :
  StronglySorted (fun o1 o2 => String.leb (label o1) (label o2) = true)
    (zoneOptions info)
  /\ Permutation (map buildZoneOption (getOr info [])) (zoneOptions info)
  /\ List.length (zoneOptions info) = List.length (getOr info [])
  /\ (forall l, filter (fun o => label o =? l) (zoneOptions info)
                = filter (fun o => label o =? l)
                    (map buildZoneOption (getOr info [])))
  /\ orderBy (zoneOptions info) label = zoneOptions info.
Proof.
  split; [apply orderBy_sorted|]. split; [apply orderBy_perm|]. split; [|split].
  - unfold zoneOptions.
    rewrite <- (Permutation_length
                  (orderBy_perm (map buildZoneOption (getOr info [])) label)).
    apply length_map.
  - intros l. apply orderBy_stable.
  - apply Array_sort_id.
    apply Array_sort_sorted; intros;
      [apply compareStrings_total|eapply compareStrings_trans; eauto].
Qed.

(** C7, against the wording: the labels are not in case-insensitive order,
    and a zone entered twice gives the same option twice. *)
Lemma zoneOptions_case_sensitive_with_repeats :
  zoneOptions (Some [ {| name := "Zug"; code := "ZG" |};
                      {| name := "aargau"; code := "AG" |};
                      {| name := "Zug"; code := "ZG" |} ])
  = [ {| value := "Zug"; label := "Zug - ZG" |};
      {| value := "Zug"; label := "Zug - ZG" |};
      {| value := "aargau"; label := "aargau - AG" |} ]
  /\ sortedBy caseInsensitiveLeb
       (map label
          (zoneOptions (Some [ {| name := "Zug"; code := "ZG" |};
                               {| name := "aargau"; code := "AG" |};
                               {| name := "Zug"; code := "ZG" |} ])))
     = false
  /\ ~ NoDup (zoneOptions (Some [ {| name := "Zug"; code := "ZG" |};
                                  {| name := "aargau"; code := "AG" |};
                                  {| name := "Zug"; code := "ZG" |} ])).
Proof.
  split; [reflexivity|]. split; [reflexivity|].
  intros H. vm_compute in H. inversion H as [|? ? Hnotin _]. apply Hnotin. now left.
Qed.

(** ** [ZoneSelect]: the reset of an unsupported zone *)

Lemma find_none_iff {A : Type} (f : A -> bool) (l : list A) :
  find f l = None <-> forall x, In x l -> f x = false.
Proof.
  split; [apply find_none|].
  induction l as [|x rest IH]; intros H; simpl; [reflexivity|].
  rewrite (H x (or_introl eq_refl)). apply IH. intros y Hy. apply H. now right.
Qed.

(** C8. The effect calls [onChange] with the value [null] for the field
    exactly when the current value is neither null nor empty and is the
    value of no option; in every other case it makes no call, so the value
    stays as it is. With the single option "Ontario", "Quebec" is reset and
    "Ontario" is kept. *)
Theorem resetZone_clears_unknown_value
  (options : list zoneOption) (current : jsval) (name_ : string) :
  (resetZone options current name_
   = Some {| target_name := name_; target_value := JNull |}
   <-> truthy current = true
       /\ forall o, In o options -> current <> JStr (value o))
  /\ (resetZone options current name_ = None
      <-> truthy current = false
          \/ exists o, In o options /\ current = JStr (value o))
  /\ resetZone [ {| value := "Ontario"; label := "Ontario - ON" |} ]
       (JStr "Quebec") name_
     = Some {| target_name := name_; target_value := JNull |}
  /\ resetZone [ {| value := "Ontario"; label := "Ontario - ON" |} ]
       (JStr "Ontario") name_
     = None.
Proof.
  assert (Heq : forall o, strictEqStr (value o) current = true
                          <-> current = JStr (value o)).
  { intros o. destruct current as [| |s]; simpl; try (split; discriminate).
    rewrite String.eqb_eq. split; [now intros ->|now intros [= ->]]. }
  unfold resetZone. split; [|split; [|split; reflexivity]].
  - destruct (truthy current); simpl;
      [|split; [discriminate|intros [H _]; discriminate]].
    destruct (find _ options) as [o|] eqn:E; simpl.
    + split; [discriminate|]. intros [_ H]. exfalso.
      apply find_some in E. destruct E as [Hin Ho].
      apply (H o Hin). now apply Heq.
    + split; [intros _|reflexivity]. split; [reflexivity|].
      intros o Hin Hc. apply Heq in Hc.
      rewrite (proj1 (find_none_iff _ _) E o Hin) in Hc. discriminate.
  - destruct (truthy current); simpl; [|split; [now left|reflexivity]].
    destruct (find _ options) as [o|] eqn:E; simpl.
    + split; [intros _|reflexivity]. right.
      apply find_some in E. destruct E as [Hin Ho]. exists o. split; [exact Hin|].
      now apply Heq.
    + split; [discriminate|]. intros [H|[o [Hin Hc]]]; [discriminate|].
      apply Heq in Hc. rewrite (proj1 (find_none_iff _ _) E o Hin) in Hc.
      discriminate.
Qed.

(** ** The matches of a layout *)

Lemma isLetter_isWordChar (c : ascii) : isLetter c = true -> isWordChar c = true.
Proof. unfold isWordChar. now intros ->. Qed.

(** A candidate of two characters or more always ends as a match. *)
Lemma scanMatches_candidate (s tok : string) :
  2 <= String.length tok -> scanMatches (Some tok) s <> [].
Proof.
  assert (Hclose : forall t, 2 <= String.length t -> closeMatch (Some t) = [t]).
  { intros t Ht. unfold closeMatch.
    now rewrite (proj2 (Nat.leb_le 2 (String.length t)) Ht). }
  revert tok. induction s as [|c rest IH]; intros tok Htok; cbn [scanMatches].
  - now rewrite Hclose.
  - destruct (isWordChar c).
    + apply IH. rewrite length_append. simpl. lia.
    + now rewrite Hclose.
Qed.

(** The scan finds nothing exactly when no letter is directly followed by a
    word character. *)
Lemma scanMatches_nil (s : string) :
  scanMatches None s = [] <-> hasMatch s = false.
Proof.
  induction s as [|c rest IH]; simpl; [tauto|].
  destruct (isLetter c) eqn:Ec; simpl; [|exact IH].
  destruct rest as [|d rest']; simpl; [tauto|].
  destruct (isWordChar d) eqn:Ed; simpl.
  - split; [|discriminate]. intros H. exfalso. revert H.
    apply scanMatches_candidate. simpl. lia.
  - simpl in IH. destruct (isLetter d) eqn:El.
    + apply isLetter_isWordChar in El. congruence.
    + exact IH.
Qed.

Lemma String_match_scan (s : string) :
  String_match s = if hasMatch s then Some (scanMatches None s) else None.
Proof.
  unfold String_match. destruct (hasMatch s) eqn:E.
  - destruct (scanMatches None s) eqn:Es; [|reflexivity].
    apply scanMatches_nil in Es. congruence.
  - apply scanMatches_nil in E. now rewrite E.
Qed.

Lemma allWordChars_app (s : string) (c : ascii) :
  allWordChars s = true -> isWordChar c = true ->
  allWordChars (s ++ String c EmptyString) = true.
Proof.
  induction s as [|d s IH]; simpl; intros Hs Hc.
  - now rewrite Hc.
  - apply andb_prop in Hs. destruct Hs as [Hd Hs]. now rewrite Hd, IH.
Qed.

(** Every match the scan returns is a letter followed by word characters. *)
Lemma scanMatches_shape (s : string) :
  forallb isMatchShape (scanMatches None s) = true.
Proof.
  assert (Hclose : forall c w,
             isLetter c = true -> allWordChars w = true ->
             forallb isMatchShape (closeMatch (Some (String c w))) = true).
  { intros c w Hc Hw. destruct w as [|d w]; [reflexivity|].
    unfold closeMatch. cbn [String.length Nat.leb forallb isMatchShape].
    now rewrite Hc, Hw. }
  assert (H : forall cur,
             match cur with
             | Some (String c w) => isLetter c = true /\ allWordChars w = true
             | Some EmptyString => False
             | None => True
             end ->
             forallb isMatchShape (scanMatches cur s) = true).
  { induction s as [|a rest IH]; intros cur Hcur; cbn [scanMatches].
    - destruct cur as [[|c w]|]; [destruct Hcur| |reflexivity].
      now apply Hclose.
    - destruct cur as [[|c w]|]; [destruct Hcur| |].
      + destruct Hcur as [Hc Hw]. destruct (isWordChar a) eqn:Ea.
        * apply IH. split; [exact Hc|]. now apply allWordChars_app.
        * rewrite forallb_app, Hclose by assumption. apply IH. exact I.
      + destruct (isLetter a) eqn:Ea; apply IH; [now split|exact I]. }
  now apply H.
Qed.

Example match_provider_layout :
  String_match "{firstName}{lastName}_{company}_{address1}_{address2}_{city}_{country}{province}{zip}_{phone}"
  = Some ["firstName"; "lastName"; "company"; "address1"; "address2"; "city";
          "country"; "province"; "zip"; "phone"].
Proof. reflexivity. Qed.

Example match_needs_two_characters :
  String_match "a b, c" = None
  /\ String_match "1abc _x a1 b_ zip9" = Some ["abc"; "a1"; "b_"; "zip9"].
Proof. split; reflexivity. Qed.

Lemma mappedMatches_Some (s : string) :
  mappedMatches (Some s)
  = if hasMatch s
    then Ok (map renameMatch
               (filter (fun m => includes necessaryFields m) (scanMatches None s)))
    else Throw TypeError.
Proof.
  unfold mappedMatches, matches. simpl. rewrite String_match_scan.
  now destruct (hasMatch s).
Qed.

(** C5, as the code has it. Reading the mapped matches fails exactly when
    the layout is null or missing, or when it has no match at all, that is
    no letter directly followed by a word character. It returns the empty
    sequence exactly for a layout that has matches none of which is a
    necessary field. *)
Theorem mappedMatches_fails_iff (template : option string) :
  ((exists e, mappedMatches template = Throw e)
   <-> template = None
       \/ exists s, template = Some s /\ hasMatch s = false)
  /\ (mappedMatches template = Ok []
      <-> exists s, template = Some s /\ hasMatch s = true
                    /\ forall m, In m (scanMatches None s) ->
                                 ~ In m necessaryFields).
Proof.
  destruct template as [s|].
  - rewrite mappedMatches_Some. destruct (hasMatch s) eqn:E; split.
    + split.
      * intros [e H]. discriminate.
      * intros [H|[s' [[= <-] H]]]; [discriminate|congruence].
    + split.
      * intros H. exists s. split; [reflexivity|]. split; [exact E|].
        intros m Hm Hn.
        assert (Hin : In m (filter (fun m => includes necessaryFields m)
                              (scanMatches None s))).
        { apply filter_In. split; [exact Hm|now apply includes_In]. }
        apply (in_map renameMatch) in Hin.
        assert (Heq : forall l : list string, Ok l = Ok [] -> l = [])
          by (intros l [= ->]; reflexivity).
        apply Heq in H. rewrite H in Hin. destruct Hin.
      * intros [s' [[= <-] [_ H]]]. f_equal.
        destruct (filter (fun m => includes necessaryFields m) (scanMatches None s))
          as [|m rest] eqn:Ef; [reflexivity|].
        assert (Hin : In m (filter (fun m => includes necessaryFields m)
                              (scanMatches None s))) by (rewrite Ef; now left).
        apply filter_In in Hin. destruct Hin as [Hm Hi].
        apply includes_In in Hi. exfalso. exact (H m Hm Hi).
    + split; [intros _; right; now exists s|intros _; now exists TypeError].
    + split; [discriminate|]. intros [s' [[= <-] [H _]]]. congruence.
  - split.
    + split; [intros _; now left|intros _; now exists TypeError].
    + split; [discriminate|]. intros [s [H _]]. discriminate.
Qed.

(** C5, against the wording: a layout that is a string, but empty or made of
    punctuation only, does not give the empty sequence; [match] returns
    [null] and the call of [filter] on it throws. *)
Lemma mappedMatches_empty_layout_throws :
  mappedMatches (Some "") = Throw TypeError
  /\ mappedMatches (Some ", - ") = Throw TypeError
  /\ wrangleAddressData
       (Info {| info_formatting := Some {| edit := Some "" |};
                info_labels := Some [("city", "City")];
                info_optionalLabels := None;
                info_zones := None |})
     = Throw TypeError.
Proof. repeat split. Qed.

(** ** The order of the resolved fields *)

Lemma indexOf_lower (l : list string) (x : string) : (-1 <= indexOf l x)%Z.
Proof.
  induction l as [|y rest IH]; simpl; [lia|].
  destruct (x =? y); [lia|]. destruct (Z.ltb_spec (indexOf rest x) 0); lia.
Qed.

Lemma indexOf_In (l : list string) (x : string) :
  In x l <-> (0 <= indexOf l x)%Z.
Proof.
  induction l as [|y rest IH]; simpl; [split; [tauto|lia]|].
  destruct (String.eqb_spec x y) as [->|Hne].
  - split; [lia|now left].
  - destruct (Z.ltb_spec (indexOf rest x) 0) as [Hlt|Hge].
    + split; [intros [E|Hin]; [congruence|apply IH in Hin; lia]|lia].
    + split; [lia|]. intros _. right. apply IH. lia.
Qed.

(** Two elements found at the same position are the same element. *)
Lemma indexOf_inj (l : list string) (x y : string) :
  In x l -> indexOf l x = indexOf l y -> x = y.
Proof.
  induction l as [|a rest IH]; simpl; [tauto|].
  intros Hin.
  pose proof (indexOf_lower rest x) as Lx. pose proof (indexOf_lower rest y) as Ly.
  destruct (String.eqb_spec x a) as [->|Hxa];
    destruct (String.eqb_spec y a) as [->|Hya]; try reflexivity.
  - destruct (Z.ltb_spec (indexOf rest y) 0); lia.
  - destruct (Z.ltb_spec (indexOf rest x) 0); lia.
  - destruct Hin as [E|Hin]; [congruence|].
    pose proof (proj1 (indexOf_In rest x) Hin) as Hx.
    destruct (Z.ltb_spec (indexOf rest x) 0); [lia|].
    destruct (Z.ltb_spec (indexOf rest y) 0); [lia|].
    intros Heq. apply IH; [exact Hin|lia].
Qed.

Lemma Array_sort_map {A B : Type} (g : A -> B) (cmp : B -> B -> Z) (l : list A) :
  map g (Array_sort (fun a b => cmp (g a) (g b)) l) = Array_sort cmp (map g l).
Proof.
  induction l as [|x rest IH]; [reflexivity|].
  cbn [Array_sort fold_right map]. unfold Array_sort in IH. rewrite <- IH.
  generalize (fold_right (insertSorted (fun a b => cmp (g a) (g b))) [] rest) as t.
  induction t as [|y t IHt]; [reflexivity|].
  cbn [insertSorted map]. destruct (cmp (g x) (g y) <=? 0)%Z; [reflexivity|].
  cbn [map]. now rewrite IHt.
Qed.

Lemma filter_map_fst {V : Type} (p : string -> bool) (o : object V) :
  map fst (filter (fun entry => p (fst entry)) o) = filter p (Object_keys o).
Proof.
  induction o as [|[k v] rest IH]; simpl; [reflexivity|].
  destruct (p k); simpl; now rewrite IH.
Qed.

Lemma StronglySorted_filter {A : Type} (R : A -> A -> Prop) (p : A -> bool)
  (l : list A) :
  StronglySorted R l -> StronglySorted R (filter p l).
Proof.
  induction 1 as [|x rest Hrest IH Hx]; simpl; [constructor|].
  destruct (p x); [|exact IH]. constructor; [exact IH|].
  rewrite Forall_forall in Hx |- *. intros y Hy. apply Hx.
  now apply filter_In in Hy.
Qed.

Lemma StronglySorted_on_members {A : Type} (R R' : A -> A -> Prop) (l : list A) :
  (forall x y, In x l -> In y l -> R x y -> R' x y) ->
  StronglySorted R l -> StronglySorted R' l.
Proof.
  intros Himp H. induction H as [|x rest Hrest IH Hx]; [constructor|].
  constructor.
  - apply IH. intros a b Ha Hb. apply Himp; now right.
  - rewrite Forall_forall in Hx |- *. intros y Hy.
    apply Himp; [now left|now right|now apply Hx].
Qed.

Lemma firstOccurrences_In (l : list string) (x : string) :
  In x (firstOccurrences l) <-> In x l.
Proof.
  induction l as [|a rest IH]; simpl; [tauto|].
  rewrite filter_In, IH.
  destruct (String.eqb_spec x a) as [->|Hne]; simpl; [tauto|].
  split; [tauto|]. intros [E|H]; [congruence|tauto].
Qed.

Lemma firstOccurrences_NoDup (l : list string) : NoDup (firstOccurrences l).
Proof.
  induction l as [|a rest IH]; simpl; constructor.
  - rewrite filter_In. intros [_ H]. now rewrite String.eqb_refl in H.
  - now apply NoDup_filter.
Qed.

(** The first occurrences stand in the order of their positions. *)
Lemma firstOccurrences_sorted (l : list string) :
  StronglySorted (before (fun a b => (indexOf l a - indexOf l b)%Z))
    (firstOccurrences l).
Proof.
  induction l as [|a rest IH]; simpl; constructor.
  - apply StronglySorted_on_members
      with (R := before (fun x y => (indexOf rest x - indexOf rest y)%Z));
      [|now apply StronglySorted_filter].
    intros x y Hx Hy. unfold before. simpl.
    apply filter_In in Hx, Hy. destruct Hx as [Hx Hxa], Hy as [Hy Hya].
    apply (proj1 (firstOccurrences_In _ _)), (proj1 (indexOf_In _ _)) in Hx.
    apply (proj1 (firstOccurrences_In _ _)), (proj1 (indexOf_In _ _)) in Hy.
    destruct (x =? a); [discriminate|]. destruct (y =? a); [discriminate|].
    destruct (Z.ltb_spec (indexOf rest x) 0); [lia|].
    destruct (Z.ltb_spec (indexOf rest y) 0); lia.
  - rewrite Forall_forall. intros y Hy. unfold before. simpl.
    rewrite String.eqb_refl. pose proof (indexOf_lower rest y).
    destruct (y =? a); [lia|]. destruct (Z.ltb_spec (indexOf rest y) 0); [|lia].
    apply filter_In in Hy. destruct Hy as [Hy _].
    apply (proj1 (firstOccurrences_In _ _)), (proj1 (indexOf_In _ _)) in Hy. lia.
Qed.

(** The keys of [addressFormFields]: the mapped matches that have a label,
    each once, at the place of its first occurrence. *)
Lemma addressFormFields_keys (mapped : list string) (labels : object string) :
  NoDup (Object_keys labels) ->
  map fst (addressFormFields mapped labels)
  = filter (includes (Object_keys labels)) (firstOccurrences mapped).
Proof.
  intros Hnd. unfold addressFormFields.
  rewrite (Array_sort_map fst (fun a b => (indexOf mapped a - indexOf mapped b)%Z)).
  rewrite (filter_map_fst (includes mapped)).
  apply (sorted_perm_eq (before (fun a b => (indexOf mapped a - indexOf mapped b)%Z))).
  - intros x y Hx _ Hxy Hyx. apply Array_sort_In, filter_In in Hx.
    destruct Hx as [_ Hx]. apply includes_In in Hx.
    apply (indexOf_inj mapped); [exact Hx|]. unfold before in *. lia.
  - apply Array_sort_sorted; intros; lia.
  - apply StronglySorted_filter, firstOccurrences_sorted.
  - apply NoDup_Permutation.
    + eapply Permutation_NoDup; [apply Array_sort_perm|]. now apply NoDup_filter.
    + apply NoDup_filter, firstOccurrences_NoDup.
    + intros x. rewrite Array_sort_In, !filter_In, firstOccurrences_In,
        !includes_In. tauto.
Qed.

Lemma addressFormFields_incl (mapped : list string) (labels : object string)
  (entry : string * string) :
  In entry (addressFormFields mapped labels) ->
  In entry labels /\ In (fst entry) mapped.
Proof.
  unfold addressFormFields. rewrite Array_sort_In, filter_In, includes_In. tauto.
Qed.

(** ** [wrangleAddressData] *)

Lemma pushZones_found (fs : list field) (zs : list zone) :
  In "zone" (map fieldName fs) ->
  exists fs', pushZones fs zs = Some fs'
              /\ map (fun f => (fieldName f, fieldLabel f)) fs'
                 = map (fun f => (fieldName f, fieldLabel f)) fs.
Proof.
  induction fs as [|f rest IH]; simpl; [tauto|]. intros Hin.
  destruct (String.eqb_spec (fieldName f) "zone") as [E|Hne].
  - eexists. split; reflexivity.
  - destruct Hin as [E|Hin]; [congruence|].
    destruct (IH Hin) as [fs' [Hp Hm]]. rewrite Hp. simpl.
    eexists. split; [reflexivity|]. simpl. now rewrite Hm.
Qed.

Lemma entryField_pairs (entries : list (string * string)) :
  map (fun f => (fieldName f, fieldLabel f)) (map entryField entries) = entries.
Proof.
  induction entries as [|[k v] rest IH]; simpl; [reflexivity|]. now rewrite IH.
Qed.

(** When the layout has a match, and the zone has a label whenever the
    country has zones, the function returns fields: the entries of
    [addressFormFields], as names and labels. *)
Lemma wrangle_Info_returns (template : string) (labels : object string)
  (optional : option (object string)) (zones : option (list zone)) :
  hasMatch template = true ->
  In "zone" (Object_keys labels) \/ getOr zones [] = [] ->
  exists fs,
    wrangleAddressData
      (Info {| info_formatting := Some {| edit := Some template |};
               info_labels := Some labels;
               info_optionalLabels := optional;
               info_zones := zones |})
    = Ok (FormFields fs)
    /\ map (fun f => (fieldName f, fieldLabel f)) fs
       = addressFormFields (map renameMatch (recognizedTokens template)) labels.
Proof.
  intros Hm Hz. unfold wrangleAddressData.
  cbn [info_formatting info_labels info_zones edit bind deref].
  rewrite mappedMatches_Some, Hm. cbn [bind deref].
  fold (recognizedTokens template).
  set (mapped := map renameMatch (recognizedTokens template)).
  destruct (includes mapped "zone" && negb (isEmpty (getOr zones []))) eqn:E.
  - apply andb_prop in E. destruct E as [Ezone Ezs].
    destruct Hz as [Hz|Hz];
      [|rewrite Hz in Ezs; discriminate].
    assert (Hin : In "zone"
                    (map fieldName (map entryField (addressFormFields mapped labels)))).
    { apply in_map_iff in Hz. destruct Hz as [[k v] [Hk Hl]]. simpl in Hk. subst k.
      rewrite map_map. apply in_map_iff. exists ("zone", v). split; [reflexivity|].
      unfold addressFormFields. apply Array_sort_In, filter_In. now split. }
    destruct (pushZones_found _ (getOr zones []) Hin) as [fs' [Hp Hpairs]].
    rewrite Hp. cbn [bind deref]. exists fs'. split; [reflexivity|].
    now rewrite Hpairs, entryField_pairs.
  - eexists. split; [reflexivity|]. apply entryField_pairs.
Qed.

Lemma renameMatch_fieldKeys (m : string) :
  In m necessaryFields -> In (renameMatch m) fieldKeys.
Proof. apply in_map. Qed.

Lemma map_fieldName_pairs (fs : list field) :
  map fieldName fs = map fst (map (fun f => (fieldName f, fieldLabel f)) fs).
Proof. now rewrite map_map. Qed.

(** C2, as the code has it. For a layout with at least one match, the mapped
    matches are the recognized tokens, one per occurrence from left to right,
    with [zip] renamed to [postalCode], [province] to [zone] and the others
    kept ([address1] stays [address1]). The fields returned are named by the
    mapped matches that have a label, each once, in the order of first
    occurrence; no other name occurs. *)
Theorem fields_follow_first_occurrences (template : string)
  (labels : object string) (optional : option (object string))
  (zones : option (list zone)) :
  NoDup (Object_keys labels) ->
  hasMatch template = true ->
  In "zone" (Object_keys labels) \/ getOr zones [] = [] ->
  mappedMatches (Some template)
  = Ok (map renameMatch (recognizedTokens template))
  /\ (exists fs,
        wrangleAddressData
          (Info {| info_formatting := Some {| edit := Some template |};
                   info_labels := Some labels;
                   info_optionalLabels := optional;
                   info_zones := zones |})
        = Ok (FormFields fs)
        /\ map fieldName fs
           = filter (includes (Object_keys labels))
               (firstOccurrences (map renameMatch (recognizedTokens template)))
        /\ Forall (fun k => In k fieldKeys) (map fieldName fs))
  /\ mappedMatches (Some "{{address1}} {{city}}, {{province}} {{zip}}")
     = Ok ["address1"; "city"; "zone"; "postalCode"].
Proof.
  intros Hnd Hm Hz. split; [|split; [|reflexivity]].
  - rewrite mappedMatches_Some, Hm. reflexivity.
  - destruct (wrangle_Info_returns template labels optional zones Hm Hz)
      as [fs [Hrun Hpairs]].
    exists fs. split; [exact Hrun|].
    assert (Hnames : map fieldName fs
                     = filter (includes (Object_keys labels))
                         (firstOccurrences
                            (map renameMatch (recognizedTokens template)))).
    { rewrite map_fieldName_pairs, Hpairs. now apply addressFormFields_keys. }
    split; [exact Hnames|].
    rewrite Hnames, Forall_forall. intros k Hk.
    apply filter_In in Hk. destruct Hk as [Hk _].
    apply (proj1 (firstOccurrences_In _ _)), in_map_iff in Hk.
    destruct Hk as [m [<- Hmin]]. apply renameMatch_fieldKeys.
    unfold recognizedTokens in Hmin. apply filter_In in Hmin.
    now apply includes_In.
Qed.

Lemma fields_follow_first_occurrences_witness :
  exists fs,
    wrangleAddressData
      (Info {| info_formatting :=
                 Some {| edit := Some "{firstName}{lastName}_{address1}_{zip}{city}_{zip}" |};
               info_labels :=
                 Some [("address1", "Address"); ("city", "City");
                       ("firstName", "First name"); ("postalCode", "Postal code")];
               info_optionalLabels := None;
               info_zones := None |})
    = Ok (FormFields fs)
    /\ map fieldName fs = ["address1"; "postalCode"; "city"].
Proof.
  destruct (fields_follow_first_occurrences
              "{firstName}{lastName}_{address1}_{zip}{city}_{zip}"
              [("address1", "Address"); ("city", "City");
               ("firstName", "First name"); ("postalCode", "Postal code")]
              None None)
    as [_ [[fs [Hrun [Hnames _]]] _]].
  - repeat constructor; simpl; intuition discriminate.
  - reflexivity.
  - now right.
  - exists fs. split; [exact Hrun|]. rewrite Hnames. reflexivity.
Defined.

(** C2, against the wording: the example layout gives the key [address1],
    which is the key of the label; no key [street1] exists. *)
Lemma example_layout_yields_address1 :
  mappedMatches (Some "{{address1}} {{city}}, {{province}} {{zip}}")
  = Ok ["address1"; "city"; "zone"; "postalCode"]
  /\ mappedMatches (Some "{{address1}} {{city}}, {{province}} {{zip}}")
     <> Ok ["street1"; "city"; "zone"; "postalCode"]
  /\ wrangleAddressData
       (Info {| info_formatting :=
                  Some {| edit := Some "{{address1}} {{city}}, {{province}} {{zip}}" |};
                info_labels :=
                  Some [("address1", "Address"); ("city", "City");
                        ("postalCode", "Postal code"); ("zone", "Province")];
                info_optionalLabels := None;
                info_zones := None |})
     = Ok (FormFields
             [ {| fieldName := "address1"; fieldLabel := "Address"; fieldInfo := None |};
               {| fieldName := "city"; fieldLabel := "City"; fieldInfo := None |};
               {| fieldName := "zone"; fieldLabel := "Province"; fieldInfo := None |};
               {| fieldName := "postalCode"; fieldLabel := "Postal code";
                  fieldInfo := None |} ]).
Proof.
  split; [reflexivity|]. split; [|reflexivity]. vm_compute. discriminate.
Qed.

(** C10. Whenever fields are returned, no field name occurs twice, however
    often the layout repeats a token: every field is an entry of the labels,
    and the keys of the labels are distinct. *)
Theorem resolved_field_names_unique (template : string)
  (labels : object string) (optional : option (object string))
  (zones : option (list zone)) :
  NoDup (Object_keys labels) ->
  hasMatch template = true ->
  In "zone" (Object_keys labels) \/ getOr zones [] = [] ->
  exists fs,
    wrangleAddressData
      (Info {| info_formatting := Some {| edit := Some template |};
               info_labels := Some labels;
               info_optionalLabels := optional;
               info_zones := zones |})
    = Ok (FormFields fs)
    /\ NoDup (map fieldName fs)
    /\ forall f, In f fs -> In (fieldName f, fieldLabel f) labels.
Proof.
  intros Hnd Hm Hz.
  destruct (wrangle_Info_returns template labels optional zones Hm Hz)
    as [fs [Hrun Hpairs]].
  exists fs. split; [exact Hrun|]. split.
  - rewrite map_fieldName_pairs, Hpairs, addressFormFields_keys by exact Hnd.
    apply NoDup_filter, firstOccurrences_NoDup.
  - intros f Hf.
    apply (in_map (fun f => (fieldName f, fieldLabel f))) in Hf.
    rewrite Hpairs in Hf. now apply addressFormFields_incl in Hf.
Qed.

Lemma resolved_field_names_unique_witness :
  exists fs,
    wrangleAddressData
      (Info {| info_formatting := Some {| edit := Some "{city}_{zip}{city}_{province}" |};
               info_labels :=
                 Some [("city", "City"); ("postalCode", "Postal code");
                       ("zone", "Region")];
               info_optionalLabels := None;
               info_zones := Some [ {| name := "Bavaria"; code := "BY" |} ] |})
    = Ok (FormFields fs)
    /\ NoDup (map fieldName fs).
Proof.
  destruct (resolved_field_names_unique
              "{city}_{zip}{city}_{province}"
              [("city", "City"); ("postalCode", "Postal code"); ("zone", "Region")]
              None (Some [ {| name := "Bavaria"; code := "BY" |} ]))
    as [fs [Hrun [Hnd _]]].
  - repeat constructor; simpl; intuition discriminate.
  - reflexivity.
  - left. simpl. tauto.
  - exists fs. split; [exact Hrun|exact Hnd].
Defined.

(** ** The effect: results are applied as they arrive *)

Lemma pending_failed (c : component) : pending (failed c) = pending c.
Proof. reflexivity. Qed.

Lemma pending_applyResponse (c : component) (f : fetch) (response : countryInfo) :
  pending (applyResponse c f response) = pending c.
Proof.
  unfold applyResponse.
  destruct (wrangleAddressData (Info response)) as [[a|fs]|e]; try reflexivity.
  destruct (getAddressFieldDifferences _ _ _) as [[h v]|e]; reflexivity.
Qed.

Lemma find_older (older : list (nat * fetch)) (rest : list (nat * fetch)) (n : nat) :
  (forall p, In p older -> fst p < n) ->
  find (fun p => (fst p =? n)%nat) (older ++ rest)
  = find (fun p => (fst p =? n)%nat) rest.
Proof.
  induction older as [|q older IH]; intros Hlt; simpl; [reflexivity|].
  destruct (Nat.eqb_spec (fst q) n) as [E|_].
  - pose proof (Hlt q (or_introl eq_refl)). lia.
  - apply IH. intros p Hp. apply Hlt. now right.
Qed.

Lemma filter_older (older : list (nat * fetch)) (rest : list (nat * fetch)) (n : nat) :
  (forall p, In p older -> fst p < n) ->
  filter (fun p => negb (fst p =? n)%nat) (older ++ rest)
  = older ++ filter (fun p => negb (fst p =? n)%nat) rest.
Proof.
  induction older as [|q older IH]; intros Hlt; simpl; [reflexivity|].
  destruct (Nat.eqb_spec (fst q) n) as [E|_].
  - pose proof (Hlt q (or_introl eq_refl)). lia.
  - simpl. f_equal. apply IH. intros p Hp. apply Hlt. now right.
Qed.

Lemma started_applyResponse (c : component) (f : fetch) (response : countryInfo) :
  started (applyResponse c f response) = started c.
Proof.
  unfold applyResponse.
  destruct (wrangleAddressData (Info response)) as [[a|fs]|e]; try reflexivity.
  destruct (getAddressFieldDifferences _ _ _) as [[h v]|e]; reflexivity.
Qed.

(** The numbers of the pending fetches are below the number of fetches
    started: an invariant of every step, hence of every run from the mount. *)
Lemma step_numbering (c : component) (e : event) :
  (forall p, In p (pending c) -> fst p < started c) ->
  forall p, In p (pending (step c e)) -> fst p < started (step c e).
Proof.
  intros Hc p. destruct e as [selected v|id o]; cbn [step].
  - cbn. rewrite in_app_iff. intros [Hp|[<-|[]]]; [apply Hc in Hp; lia|simpl; lia].
  - destruct (findFetch c id) as [f|]; [|apply Hc].
    destruct o as [response|].
    + rewrite pending_applyResponse, started_applyResponse. cbn.
      rewrite filter_In. intros [Hp _]. now apply Hc.
    + cbn. rewrite filter_In. intros [Hp _]. now apply Hc.
Qed.

Lemma run_numbering (h : heap) (trace : list event) :
  forall p, In p (pending (run (mount h) trace)) ->
            fst p < started (run (mount h) trace).
Proof.
  unfold run.
  assert (H : forall c, (forall p, In p (pending c) -> fst p < started c) ->
                        forall p, In p (pending (fold_left step trace c)) ->
                                  fst p < started (fold_left step trace c)).
  { induction trace as [|e rest IH]; intros c Hc; [exact Hc|].
    simpl. apply IH. now apply step_numbering. }
  apply H. intros p [].
Qed.

(** What the arrival of a response does, for any pending fetch. *)
Lemma settle_fulfilled (c : component) (id : nat) (f : fetch)
  (response : countryInfo) (fs : list field) :
  findFetch c id = Some f ->
  wrangleAddressData (Info response) = Ok (FormFields fs) ->
  data (step c (Settle id (Fulfilled response))) = Some response
  /\ fields (step c (Settle id (Fulfilled response))) = Some fs
  /\ loading (step c (Settle id (Fulfilled response))) = false
  /\ match getAddressFieldDifferences (store c) (fetch_value f) fs with
     | Ok (h, v) =>
         store (step c (Settle id (Fulfilled response))) = h
         /\ calls (step c (Settle id (Fulfilled response)))
            = calls c ++ [OnCountryChange v; OnLoadSuccess response fs]
     | Throw _ =>
         store (step c (Settle id (Fulfilled response))) = store c
         /\ calls (step c (Settle id (Fulfilled response)))
            = calls c ++ [OnLoadError]
     end.
Proof.
  intros Hf Hw. cbn [step]. rewrite Hf. unfold applyResponse. rewrite Hw.
  cbn [setData setFields forget store].
  destruct (getAddressFieldDifferences (store c) (fetch_value f) fs)
    as [[h v]|e]; cbn; repeat split. now rewrite <- app_assoc.
Qed.

(** C1, as the code has it. The effect keeps no counter and no token: a
    response is applied when it arrives. Let a fetch A be started, then a
    fetch B, and let B's fulfilled response arrive first. A's fetch is then
    still pending, and when its response arrives it replaces what B's had
    set: the data and the fields are A's, and the last calls on the caller
    are [onCountryChange], with the value captured by A pruned to A's
    fields, and [onLoadSuccess] for A (or [onLoadError] if the reconciliation
    throws). A rejection of A arriving last is signalled too, through
    [onLoadError]. *)
Theorem last_arrival_is_applied (c : component)
  (countryA countryB : string) (valueA valueB : ref)
  (responseA responseB : countryInfo) (fieldsA : list field) :
  (forall p, In p (pending c) -> fst p < started c) ->
  wrangleAddressData (Info responseA) = Ok (FormFields fieldsA) ->
  findFetch
    (run c [ SelectCountry countryA valueA; SelectCountry countryB valueB;
             Settle (S (started c)) (Fulfilled responseB) ])
    (started c)
  = Some {| fetch_country := country countryA; fetch_value := valueA |}
  /\ data (run c [ SelectCountry countryA valueA; SelectCountry countryB valueB;
                   Settle (S (started c)) (Fulfilled responseB);
                   Settle (started c) (Fulfilled responseA) ])
     = Some responseA
  /\ fields (run c [ SelectCountry countryA valueA; SelectCountry countryB valueB;
                     Settle (S (started c)) (Fulfilled responseB);
                     Settle (started c) (Fulfilled responseA) ])
     = Some fieldsA
  /\ match getAddressFieldDifferences
             (store (run c [ SelectCountry countryA valueA;
                             SelectCountry countryB valueB;
                             Settle (S (started c)) (Fulfilled responseB) ]))
             valueA fieldsA with
     | Ok (h, v) =>
         exists earlier,
           calls (run c [ SelectCountry countryA valueA;
                          SelectCountry countryB valueB;
                          Settle (S (started c)) (Fulfilled responseB);
                          Settle (started c) (Fulfilled responseA) ])
           = earlier ++ [OnCountryChange v; OnLoadSuccess responseA fieldsA]
     | Throw _ =>
         exists earlier,
           calls (run c [ SelectCountry countryA valueA;
                          SelectCountry countryB valueB;
                          Settle (S (started c)) (Fulfilled responseB);
                          Settle (started c) (Fulfilled responseA) ])
           = earlier ++ [OnLoadError]
     end
  /\ exists earlier,
       calls (run c [ SelectCountry countryA valueA; SelectCountry countryB valueB;
                      Settle (S (started c)) (Fulfilled responseB);
                      Settle (started c) Rejected ])
       = earlier ++ [OnLoadError].
Proof.
  intros Hold Hw.
  set (fa := {| fetch_country := country countryA; fetch_value := valueA |}).
  set (fb := {| fetch_country := country countryB; fetch_value := valueB |}).
  set (cB := run c [ SelectCountry countryA valueA; SelectCountry countryB valueB;
                     Settle (S (started c)) (Fulfilled responseB) ]).
  assert (HfindB :
            find (fun p => (fst p =? S (started c))%nat)
              ((pending c ++ [(started c, fa)]) ++ [(S (started c), fb)])
            = Some (S (started c), fb)).
  { rewrite find_older.
    - simpl. now rewrite Nat.eqb_refl.
    - intros p Hp. apply in_app_iff in Hp. destruct Hp as [Hp|[<-|[]]].
      + apply Hold in Hp. lia.
      + simpl. lia. }
  assert (HpendB : pending cB = pending c ++ [(started c, fa)]).
  { assert (Hp2 : pending (startFetch (startFetch c countryA valueA)
                             countryB valueB)
                  = (pending c ++ [(started c, fa)]) ++ [(S (started c), fb)])
      by reflexivity.
    unfold cB, run. cbn [fold_left step]. unfold findFetch.
    rewrite Hp2, HfindB. cbn [option_map snd].
    rewrite pending_applyResponse.
    change (pending (forget ?x ?n))
      with (filter (fun p => negb (fst p =? n)%nat) (pending x)).
    rewrite Hp2, filter_older.
    - simpl. rewrite Nat.eqb_refl. simpl. now rewrite app_nil_r.
    - intros p Hp. apply in_app_iff in Hp. destruct Hp as [Hp|[<-|[]]].
      + apply Hold in Hp. lia.
      + simpl. lia. }
  assert (HfindA : findFetch cB (started c) = Some fa).
  { unfold findFetch. rewrite HpendB, find_older by exact Hold.
    simpl. now rewrite Nat.eqb_refl. }
  assert (Hrun : forall o,
             run c [ SelectCountry countryA valueA; SelectCountry countryB valueB;
                     Settle (S (started c)) (Fulfilled responseB);
                     Settle (started c) o ]
             = step cB (Settle (started c) o)) by reflexivity.
  split; [exact HfindA|].
  rewrite !Hrun.
  destruct (settle_fulfilled cB (started c) fa responseA fieldsA HfindA Hw)
    as [Hd [Hfs [_ Hcalls]]].
  split; [exact Hd|]. split; [exact Hfs|]. split.
  - change (fetch_value fa) with valueA in Hcalls.
    destruct (getAddressFieldDifferences (store cB) valueA fieldsA) as [[h v]|e];
      destruct Hcalls as [_ Hc]; exists (calls cB); exact Hc.
  - cbn [step]. rewrite HfindA. exists (calls cB). reflexivity.
Qed.

Lemma last_arrival_is_applied_witness :
  fields (run (mount [entered]) rapidSwitch) = Some fieldsCA.
Proof.
  destruct (last_arrival_is_applied (mount [entered]) "CA" "DE" (Some 0) (Some 0)
              responseCA responseDE fieldsCA)
    as [_ [_ [Hfields _]]].
  - intros p Hp. destruct Hp.
  - reflexivity.
  - exact Hfields.
Defined.

(** C1, against the wording: Canada's schema, asked for first and arriving
    last, is not discarded. The fields finally applied are Canada's although
    Germany was selected last, and the value last handed to the caller is the
    one reconciled with Canada's fields, which still holds the zone that
    Germany's reconciliation had pruned. *)
Lemma stale_response_overwrites_newer :
  fields (run (mount [entered]) rapidSwitch) = Some fieldsCA
  /\ wrangleAddressData (Info responseDE) = Ok (FormFields fieldsDE)
  /\ fields (run (mount [entered]) rapidSwitch) <> Some fieldsDE
  /\ calls (run (mount [entered]) rapidSwitch)
     = [ OnCountryChange (Some 1); OnLoadSuccess responseDE fieldsDE;
         OnCountryChange (Some 0); OnLoadSuccess responseCA fieldsCA ]
  /\ load (store (run (mount [entered]) rapidSwitch)) (Some 1)
     = Some [("address1", JStr "1 Main St")]
  /\ load (store (run (mount [entered]) rapidSwitch)) (Some 0)
     = Some [("address1", JStr "1 Main St"); ("zone", JStr "Ontario")].
Proof.
  split; [reflexivity|]. split; [reflexivity|]. split; [|repeat split].
  vm_compute. discriminate.
Qed.

(** C4, in the effect: with no address yet ([value] is [null] or
    [undefined]), a schema that arrives and parses is reported as a load
    error, although the fields have been set. *)
Lemma null_value_reports_load_error :
  calls (run (mount []) [ SelectCountry "DE" None; Settle 0 (Fulfilled responseDE) ])
  = [OnLoadError]
  /\ fields (run (mount []) [ SelectCountry "DE" None;
                              Settle 0 (Fulfilled responseDE) ])
     = Some fieldsDE.
Proof. split; reflexivity. Qed.


(** ** The country asked of the provider *)

(** X1. The country code sent to the provider is never one of the codes the
    provider lacks: such a code is replaced by "US", every other code is
    kept, and normalizing twice changes nothing. *)
Theorem country_never_missing (selected : string) :
  ~ In (country selected) missingCountries
  /\ (In selected missingCountries -> country selected = "US")
  /\ (~ In selected missingCountries -> country selected = selected)
  /\ country (country selected) = country selected.
Proof.
  assert (Hus : includes missingCountries "US" = false) by reflexivity.
  unfold country.
  destruct (includes missingCountries selected) eqn:E.
  - rewrite Hus. apply includes_In in E. repeat split; try tauto.
    intros H. apply includes_In in H. congruence.
  - rewrite E. repeat split; try tauto.
    + intros H. apply includes_In in H. congruence.
    + intros H. apply includes_In in H. congruence.
Qed.

(** ** When [wrangleAddressData] throws *)

Lemma recognizedTokens_necessary (template m : string) :
  In m (recognizedTokens template) -> In m necessaryFields.
Proof.
  unfold recognizedTokens. rewrite filter_In, includes_In. tauto.
Qed.

(** Only the token [province] is renamed to [zone]. *)
Lemma zone_from_province (template : string) :
  In "zone" (map renameMatch (recognizedTokens template))
  <-> In "province" (recognizedTokens template).
Proof.
  rewrite in_map_iff. split.
  - intros [m [Hr Hm]]. pose proof (recognizedTokens_necessary _ _ Hm) as Hn.
    simpl in Hn.
    destruct Hn as [<-|[<-|[<-|[<-|[<-|[]]]]]]; try discriminate Hr. exact Hm.
  - intros H. exists "province". split; [reflexivity|exact H].
Qed.

Lemma pushZones_None (fs : list field) (zs : list zone) :
  pushZones fs zs = None <-> ~ In "zone" (map fieldName fs).
Proof.
  induction fs as [|f rest IH]; simpl; [tauto|].
  destruct (String.eqb_spec (fieldName f) "zone") as [E|Hne].
  - split; [discriminate|]. intros H. exfalso. apply H. now left.
  - destruct (pushZones rest zs) eqn:Ep; simpl.
    + split; [discriminate|]. intros H. exfalso.
      assert (Hn : ~ In "zone" (map fieldName rest)) by tauto.
      apply IH in Hn. discriminate.
    + split; [intros _|reflexivity]. intros [E|H]; [congruence|].
      now apply (proj1 IH).
Qed.

Lemma addressFormFields_has_zone (mapped : list string) (labels : object string) :
  In "zone" (map fieldName (map entryField (addressFormFields mapped labels)))
  <-> In "zone" mapped /\ In "zone" (Object_keys labels).
Proof.
  rewrite map_map. unfold addressFormFields. split.
  - intros H. apply in_map_iff in H. destruct H as [[k v] [Hk Hin]].
    simpl in Hk. subst k.
    apply Array_sort_In, filter_In in Hin. destruct Hin as [Hl Hm].
    apply includes_In in Hm. split; [exact Hm|].
    change "zone" with (fst ("zone", v)). now apply in_map.
  - intros [Hm Hl]. apply in_map_iff in Hl. destruct Hl as [[k v] [Hk Hl]].
    simpl in Hk. subst k. apply in_map_iff. exists ("zone", v).
    split; [reflexivity|]. apply Array_sort_In, filter_In. split; [exact Hl|].
    now apply includes_In.
Qed.

(** X2. [wrangleAddressData] throws on a country object exactly in these
    cases: the formatting or its layout is missing; the layout has no match;
    the labels are missing; or the layout names the province, the country
    has zones, and the labels have no zone, so that [find] returns
    [undefined] and [push] is called on it. It never hands the object back
    unchanged. *)
Theorem wrangle_throws_iff (i : countryInfo) :
  ((exists e, wrangleAddressData (Info i) = Throw e)
   <-> match info_formatting i with
       | None => True
       | Some fmt =>
           match edit fmt with
           | None => True
           | Some template =>
               hasMatch template = false
               \/ info_labels i = None
               \/ (In "province" (recognizedTokens template)
                   /\ getOr (info_zones i) [] <> []
                   /\ forall labels, info_labels i = Some labels ->
                                     ~ In "zone" (Object_keys labels))
           end
       end)
  /\ forall a, wrangleAddressData (Info i) <> Ok (Unchanged a).
Proof.
  unfold wrangleAddressData.
  destruct (info_formatting i) as [fmt|]; cbn [bind deref];
    [|split; [split; [tauto|intros _; now exists TypeError]|discriminate]].
  destruct (edit fmt) as [template|];
    [|split; [split; [tauto|intros _; now exists TypeError]|discriminate]].
  rewrite mappedMatches_Some.
  destruct (hasMatch template) eqn:Hm; cbn [bind deref];
    [|split; [split; [tauto|intros _; now exists TypeError]|discriminate]].
  fold (recognizedTokens template).
  destruct (info_labels i) as [labels|]; cbn [bind deref];
    [|split; [split; [tauto|intros _; now exists TypeError]|discriminate]].
  set (mapped := map renameMatch (recognizedTokens template)).
  destruct (includes mapped "zone") eqn:Ez; cbn [andb].
  - destruct (getOr (info_zones i) []) as [|z zs] eqn:Ezs; cbn [isEmpty negb].
    + split; [|discriminate]. split; [intros [e H]; discriminate|].
      intros [H|[H|[_ [H _]]]]; [discriminate|discriminate|congruence].
    + destruct (pushZones (map entryField (addressFormFields mapped labels)) (z :: zs))
        as [fs'|] eqn:Ep; cbn [bind deref].
      * split; [|discriminate]. split; [intros [e H]; discriminate|].
        intros [H|[H|[_ [_ H]]]]; [discriminate|discriminate|].
        exfalso.
        assert (Hnone : pushZones (map entryField (addressFormFields mapped labels))
                          (z :: zs) = None).
        { apply pushZones_None. rewrite addressFormFields_has_zone.
          intros [_ Hl]. exact (H labels eq_refl Hl). }
        congruence.
      * split; [|discriminate]. split; [intros _|intros _; now exists TypeError].
        right. right. split; [|split; [discriminate|]].
        -- apply zone_from_province. now apply includes_In.
        -- intros labels' [= <-] Hl. apply pushZones_None in Ep. apply Ep.
           apply addressFormFields_has_zone. split; [|exact Hl].
           now apply includes_In.
  - split; [|discriminate]. split; [intros [e H]; discriminate|].
    intros [H|[H|[H _]]]; [discriminate|discriminate|].
    apply zone_from_province, includes_In in H. unfold mapped in Ez. congruence.
Qed.


(** ** The zones of the zone field *)

Lemma pushZones_infos (fs fs' : list field) (zs : list zone) :
  NoDup (map fieldName fs) ->
  Forall (fun f => fieldInfo f = None) fs ->
  pushZones fs zs = Some fs' ->
  forall f, In f fs' ->
            fieldInfo f = if fieldName f =? "zone" then Some zs else None.
Proof.
  revert fs'. induction fs as [|g rest IH]; intros fs' Hnd Hall Hp; simpl in Hp;
    [discriminate|].
  inversion Hnd as [|? ? Hg Hrest]; subst.
  inversion Hall as [|? ? Hgi Hresti]; subst.
  destruct (String.eqb_spec (fieldName g) "zone") as [E|Hne].
  - injection Hp as <-. intros f [<-|Hin]; simpl.
    + now rewrite E.
    + destruct (String.eqb_spec (fieldName f) "zone") as [Ef|_].
      * exfalso. apply Hg. rewrite E, <- Ef. now apply in_map.
      * rewrite Forall_forall in Hresti. now apply Hresti.
  - destruct (pushZones rest zs) as [rest'|] eqn:Ep; [|discriminate].
    injection Hp as <-. intros f [<-|Hin].
    + destruct (String.eqb_spec (fieldName g) "zone"); [congruence|exact Hgi].
    + now apply (IH rest').
Qed.

(** X3. When fields are returned, the list of zones is attached to the zone
    field, if the country has zones, and to no other field. *)
Theorem zones_attached_to_zone_field (template : string)
  (labels : object string) (optional : option (object string))
  (zones : option (list zone)) :
  NoDup (Object_keys labels) ->
  hasMatch template = true ->
  In "zone" (Object_keys labels) \/ getOr zones [] = [] ->
  exists fs,
    wrangleAddressData
      (Info {| info_formatting := Some {| edit := Some template |};
               info_labels := Some labels;
               info_optionalLabels := optional;
               info_zones := zones |})
    = Ok (FormFields fs)
    /\ forall f, In f fs ->
         fieldInfo f
         = if (fieldName f =? "zone") && negb (isEmpty (getOr zones []))
           then Some (getOr zones [])
           else None.
Proof.
  intros Hnd Hm Hz. unfold wrangleAddressData.
  cbn [info_formatting info_labels info_zones edit bind deref].
  rewrite mappedMatches_Some, Hm. cbn [bind deref].
  fold (recognizedTokens template).
  set (mapped := map renameMatch (recognizedTokens template)).
  assert (Hnames : NoDup (map fieldName (map entryField (addressFormFields mapped labels)))).
  { rewrite map_map.
    change (fun x => fieldName (entryField x)) with (@fst string string).
    rewrite addressFormFields_keys by exact Hnd.
    apply NoDup_filter, firstOccurrences_NoDup. }
  assert (Hnone : Forall (fun f => fieldInfo f = None)
                    (map entryField (addressFormFields mapped labels))).
  { rewrite Forall_forall. intros f Hf. apply in_map_iff in Hf.
    destruct Hf as [e [<- _]]. reflexivity. }
  destruct (includes mapped "zone") eqn:Ez; cbn [andb].
  - destruct (getOr zones []) as [|z zs] eqn:Ezs; cbn [isEmpty negb].
    + eexists. split; [reflexivity|]. intros f Hf.
      rewrite Forall_forall in Hnone. rewrite andb_false_r. now apply Hnone.
    + destruct Hz as [Hz|Hz]; [|discriminate].
      assert (Hin : In "zone"
                      (map fieldName (map entryField (addressFormFields mapped labels)))).
      { apply addressFormFields_has_zone. split; [now apply includes_In|exact Hz]. }
      destruct (pushZones (map entryField (addressFormFields mapped labels)) (z :: zs))
        as [fs'|] eqn:Ep.
      * cbn [bind deref]. exists fs'. split; [reflexivity|]. intros f Hf.
        rewrite andb_true_r.
        exact (pushZones_infos _ _ _ Hnames Hnone Ep f Hf).
      * apply pushZones_None in Ep. tauto.
  - eexists. split; [reflexivity|]. intros f Hf.
    rewrite Forall_forall in Hnone. rewrite (Hnone f Hf).
    destruct (String.eqb_spec (fieldName f) "zone") as [E|_]; [|reflexivity].
    exfalso. apply in_map_iff in Hf. destruct Hf as [e [<- He]].
    apply addressFormFields_incl in He. destruct He as [_ He].
    simpl in E. rewrite E in He. apply (proj2 (includes_In _ _)) in He.
    unfold mapped in *. congruence.
Qed.

Lemma zones_attached_to_zone_field_witness :
  exists fs,
    wrangleAddressData (Info responseCA) = Ok (FormFields fs)
    /\ forall f, In f fs ->
         fieldInfo f
         = if fieldName f =? "zone"
           then Some [ {| name := "Ontario"; code := "ON" |};
                       {| name := "Quebec"; code := "QC" |} ]
           else None.
Proof.
  destruct (zones_attached_to_zone_field
              "{firstName}{lastName}_{company}_{address1}_{address2}_{city}{province}{zip}_{country}_{phone}"
              [("address1", "Address"); ("address2", "Apartment, suite, etc.");
               ("city", "City"); ("company", "Company");
               ("country", "Country/region"); ("firstName", "First name");
               ("lastName", "Last name"); ("phone", "Phone");
               ("postalCode", "Postal code"); ("zone", "Province")]
              (Some [("address2", "Apartment, suite, etc. (optional)")])
              (Some [ {| name := "Ontario"; code := "ON" |};
                      {| name := "Quebec"; code := "QC" |} ]))
    as [fs [Hrun Hinfo]].
  - repeat constructor; simpl; intuition discriminate.
  - reflexivity.
  - left. simpl. tauto.
  - exists fs. split; [exact Hrun|]. intros f Hf. rewrite (Hinfo f Hf).
    now rewrite andb_true_r.
Defined.

(** ** Reconciling twice, and the order of the kept keys *)

(** X4. Reconciliation is idempotent: reconciling its result against the
    same fields returns that result again, same reference and same store,
    and the result has no key that is not a field. *)
Theorem reconcile_idempotent (h : heap) (l : nat) (a : address)
  (addressFields : list field) :
  nth_error h l = Some a ->
  exists h' r a',
    getAddressFieldDifferences h (Some l) addressFields = Ok (h', r)
    /\ load h' r = Some a'
    /\ (forall k, In k (Object_keys a') -> In k (map fieldName addressFields))
    /\ getAddressFieldDifferences h' r addressFields = Ok (h', r).
Proof.
  intros Hl.
  assert (Hlt : l < List.length h) by (apply nth_error_Some; congruence).
  unfold getAddressFieldDifferences at 1. simpl. rewrite Hl. simpl.
  destruct (differenceInAddressFields a (map fieldName addressFields)) eqn:E.
  - assert (Hkeys : forall k, In k (Object_keys (pick a (map fieldName addressFields))) ->
                              In k (map fieldName addressFields)).
    { intros k. rewrite In_keys_getOwn, pick_getOwn, <- includes_In.
      destruct (includes (map fieldName addressFields) k); congruence. }
    exists (h ++ [pick a (map fieldName addressFields)]), (Some (List.length h)),
      (pick a (map fieldName addressFields)).
    assert (Hload : nth_error (h ++ [pick a (map fieldName addressFields)])
                      (List.length h)
                    = Some (pick a (map fieldName addressFields)))
      by (rewrite nth_error_app2, Nat.sub_diag by lia; reflexivity).
    split; [reflexivity|]. split; [exact Hload|]. split; [exact Hkeys|].
    unfold getAddressFieldDifferences. simpl. rewrite Hload. simpl.
    now rewrite (proj2 (differenceInAddressFields_false _ _) Hkeys).
  - exists h, (Some l), a. split; [reflexivity|]. split; [exact Hl|].
    split; [now apply differenceInAddressFields_false|].
    unfold getAddressFieldDifferences. simpl. rewrite Hl. simpl. now rewrite E.
Qed.

Lemma reconcile_idempotent_witness :
  exists h' r,
    getAddressFieldDifferences [entered] (Some 0) fieldsDE = Ok (h', r)
    /\ getAddressFieldDifferences h' r fieldsDE = Ok (h', r).
Proof.
  destruct (reconcile_idempotent [entered] 0 entered fieldsDE eq_refl)
    as [h' [r [a' [H1 [_ [_ H2]]]]]].
  exists h', r. split; [exact H1|exact H2].
Defined.

Lemma filter_filter_ext {A : Type} (f g g' : A -> bool) (l : list A) :
  (forall x, g' x = g x && f x) ->
  filter g' l = filter g (filter f l).
Proof.
  intros H. induction l as [|x rest IH]; simpl; [reflexivity|].
  rewrite H. destruct (f x); simpl.
  - rewrite andb_true_r. destruct (g x); now rewrite IH.
  - rewrite andb_false_r. exact IH.
Qed.

Lemma pick_step_keys {V : Type} (o : object V) (paths : list string)
  (acc : object V) :
  Object_keys
    (fold_left
       (fun result path =>
          match getOwn o path with
          | Some v => setOwn result path v
          | None => result
          end) paths acc)
  = Object_keys acc
    ++ filter (fun k => includes (Object_keys o) k
                        && negb (includes (Object_keys acc) k))
         (firstOccurrences paths).
Proof.
  revert acc. induction paths as [|p ps IH]; intros acc; simpl.
  - now rewrite app_nil_r.
  - rewrite IH.
    assert (Hhas : forall k, includes (Object_keys o) k = true <-> getOwn o k <> None).
    { intros k. rewrite includes_In. apply In_keys_getOwn. }
    destruct (getOwn o p) as [v|] eqn:Ep.
    + assert (Hp : includes (Object_keys o) p = true) by (apply Hhas; congruence).
      rewrite Hp, setOwn_keys. simpl.
      destruct (includes (Object_keys acc) p) eqn:Ea; simpl.
      * f_equal. apply filter_filter_ext. intros x.
        destruct (String.eqb_spec x p) as [->|_]; simpl.
        -- now rewrite Ea, andb_false_r.
        -- now rewrite andb_true_r.
      * rewrite <- app_assoc. simpl. do 2 f_equal.
        apply filter_filter_ext. intros x.
        unfold includes. rewrite existsb_app. simpl.
        rewrite orb_false_r, negb_orb, andb_assoc. reflexivity.
    + assert (Hp : includes (Object_keys o) p = false).
      { destruct (includes (Object_keys o) p) eqn:E; [|reflexivity].
        apply Hhas in E. congruence. }
      rewrite Hp. simpl. f_equal. apply filter_filter_ext. intros x.
      destruct (String.eqb_spec x p) as [->|_]; simpl.
      * now rewrite Hp.
      * now rewrite andb_true_r.
Qed.

(** X5. A pruned copy lists its keys in the order of the fields, whatever
    the order in which the previous value had them. *)
Theorem pruned_keys_in_field_order (h : heap) (l : nat) (a : address)
  (addressFields : list field) :
  nth_error h l = Some a ->
  (exists k, In k (Object_keys a) /\ ~ In k (map fieldName addressFields)) ->
  exists h' r a',
    getAddressFieldDifferences h (Some l) addressFields = Ok (h', r)
    /\ load h' r = Some a'
    /\ Object_keys a'
       = filter (includes (Object_keys a))
           (firstOccurrences (map fieldName addressFields)).
Proof.
  intros Hl Hex.
  assert (Hlt : l < List.length h) by (apply nth_error_Some; congruence).
  unfold getAddressFieldDifferences. simpl. rewrite Hl. simpl.
  rewrite (proj2 (differenceInAddressFields_true _ _) Hex).
  eexists _, _, _. split; [reflexivity|]. split.
  - simpl. rewrite nth_error_app2, Nat.sub_diag by lia. reflexivity.
  - unfold pick. rewrite pick_step_keys. simpl.
    apply filter_ext. intros k. now rewrite andb_true_r.
Qed.

Lemma pruned_keys_in_field_order_witness :
  exists h' r a',
    getAddressFieldDifferences
      [[("zone", JStr "Bavaria"); ("city", JStr "Munich");
        ("address1", JStr "Marienplatz 1")]] (Some 0) fieldsDE
    = Ok (h', r)
    /\ load h' r = Some a'
    /\ Object_keys a' = ["address1"; "city"].
Proof.
  destruct (pruned_keys_in_field_order
              [[("zone", JStr "Bavaria"); ("city", JStr "Munich");
                ("address1", JStr "Marienplatz 1")]] 0
              [("zone", JStr "Bavaria"); ("city", JStr "Munich");
               ("address1", JStr "Marienplatz 1")] fieldsDE eq_refl)
    as [h' [r [a' [H1 [H2 H3]]]]].
  - exists "zone". split; [now left|]. simpl. intuition discriminate.
  - exists h', r, a'. split; [exact H1|]. split; [exact H2|].
    rewrite H3. reflexivity.
Defined.

(** ** Serializing an address without empty values *)

(** X6. For an address all of whose values are strings, the serialization
    is the join of the values in the order of the sorted keys, none left
    out: on such addresses it agrees with joining the non-null values. *)
Theorem serialize_without_nil (a : address) :
  NoDup (Object_keys a) ->
  (forall k v, In (k, v) a -> isNonNull v = true) ->
  serializeAddress (Some a) = Ok (serializeNonNull a).
Proof.
  intros Hnd Hall. unfold serializeAddress, serializeNonNull. simpl. do 2 f_equal.
  symmetry. apply forallb_filter_id. apply forallb_forall.
  intros v Hv. apply in_map_iff in Hv. destruct Hv as [k [<- Hk]].
  apply Array_sort_In in Hk. unfold readKey.
  destruct (getOwn a k) as [v|] eqn:E.
  - simpl. apply (Hall k). now apply getOwn_Some_In.
  - apply getOwn_None in E. tauto.
Qed.

Lemma serialize_without_nil_witness :
  serializeAddress (Some entered) = Ok (serializeNonNull entered).
Proof.
  apply serialize_without_nil.
  - repeat constructor; simpl; intuition discriminate.
  - intros k v [[= <- <-]|[[= <- <-]|[]]]; reflexivity.
Defined.


(** ** The zone select and its options *)

Lemma find_some_iff {A : Type} (f : A -> bool) (l : list A) :
  (exists x, In x l /\ f x = true) -> exists y, find f l = Some y.
Proof.
  intros [x [Hin Hx]]. destruct (find f l) as [y|] eqn:E; [now exists y|].
  rewrite (proj1 (find_none_iff f l) E x Hin) in Hx. discriminate.
Qed.

(** X7. Against the options built from the zones of a country, the effect
    resets the value exactly when it is neither null nor empty and is the
    name of none of the zones; the name of a listed zone is never reset, and
    without a list of zones every such value is. Otherwise the effect makes
    no call. *)
Theorem reset_iff_zone_not_listed (info : option (list zone)) (current : jsval)
  (name_ : string) :
  (resetZone (zoneOptions info) current name_
   = Some {| target_name := name_; target_value := JNull |}
   <-> truthy current = true
       /\ forall z, In z (getOr info []) -> current <> JStr (name z))
  /\ (resetZone (zoneOptions info) current name_ = None
      <-> truthy current = false
          \/ exists z, In z (getOr info []) /\ current = JStr (name z)).
Proof.
  assert (Hfind :
            (exists o, find (fun option => strictEqStr (value option) current)
                         (zoneOptions info) = Some o)
            <-> exists z, In z (getOr info []) /\ current = JStr (name z)).
  { split.
    - intros [o Ho]. apply find_some in Ho. destruct Ho as [Hin Heq].
      apply (Permutation_in _ (Permutation_sym (orderBy_perm _ label))) in Hin.
      apply in_map_iff in Hin. destruct Hin as [z [<- Hz]]. exists z.
      split; [exact Hz|]. destruct current as [| |s]; simpl in Heq; try discriminate.
      apply String.eqb_eq in Heq. now subst.
    - intros [z [Hz ->]]. apply find_some_iff. exists (buildZoneOption z). split.
      + eapply Permutation_in; [apply orderBy_perm|]. now apply in_map.
      + simpl. apply String.eqb_refl. }
  unfold resetZone.
  destruct (truthy current); simpl.
  - destruct (find _ (zoneOptions info)) as [o|] eqn:E; simpl.
    + assert (Hz : exists z, In z (getOr info []) /\ current = JStr (name z))
        by (apply Hfind; now exists o).
      split; split; try discriminate; try tauto.
      intros [_ H]. destruct Hz as [z [Hin Heq]]. exfalso. exact (H z Hin Heq).
    + assert (Hz : ~ exists z, In z (getOr info []) /\ current = JStr (name z)).
      { intros Hz. apply Hfind in Hz. destruct Hz as [o Ho]. discriminate. }
      split; split; try discriminate; try tauto.
      * intros _. split; [reflexivity|]. intros z Hin Heq. apply Hz. now exists z.
      * intros [H|H]; [discriminate|tauto].
  - split; split; try discriminate; try tauto.
    intros [H _]. discriminate.
Qed.

(** X8. The legacy select and the reset effect agree: for a value that is
    neither null nor empty, the select has no option to show exactly when
    the effect resets the value; and an option it shows is an option of the
    list whose value is the current value. *)
Theorem selection_agrees_with_reset (options : list zoneOption)
  (current : jsval) (name_ : string) :
  (truthy current = true ->
   (selectedOption options current = None
    <-> resetZone options current name_
        = Some {| target_name := name_; target_value := JNull |}))
  /\ forall o, selectedOption options current = Some o ->
               In o options /\ current = JStr (value o)
               /\ resetZone options current name_ = None.
Proof.
  unfold selectedOption, resetZone. split.
  - intros Ht. rewrite Ht. simpl.
    destruct (find _ options); simpl; split; congruence.
  - intros o Ho. rewrite Ho. apply find_some in Ho. destruct Ho as [Hin Heq].
    split; [exact Hin|]. split.
    + destruct current as [| |s]; simpl in Heq; try discriminate.
      apply String.eqb_eq in Heq. now subst.
    + now rewrite andb_false_r.
Qed.

Lemma selection_agrees_with_reset_witness :
  selectedOption [ {| value := "Ontario"; label := "Ontario - ON" |} ] (JStr "Quebec")
  = None.
Proof.
  apply (proj1 (selection_agrees_with_reset
                  [ {| value := "Ontario"; label := "Ontario - ON" |} ]
                  (JStr "Quebec") "zone")).
  - reflexivity.
  - reflexivity.
Defined.

(** X9. Choosing an option of the legacy select and reading the selection
    back shows an option with the same value: the first one of the list that
    has it. *)
Theorem chosen_option_is_shown (options : list zoneOption) (o : zoneOption)
  (name_ : string) :
  In o options ->
  exists shown,
    selectedOption options (target_value (chooseOption name_ o)) = Some shown
    /\ value shown = value o
    /\ In shown options.
Proof.
  intros Hin. unfold selectedOption, chooseOption. simpl.
  destruct (find_some_iff (fun option => strictEqStr (value option) (JStr (value o)))
              options) as [shown Hs].
  - exists o. split; [exact Hin|]. simpl. apply String.eqb_refl.
  - exists shown. split; [exact Hs|]. apply find_some in Hs.
    destruct Hs as [Hs Heq]. simpl in Heq. apply String.eqb_eq in Heq.
    split; [exact Heq|exact Hs].
Qed.

Lemma chosen_option_is_shown_witness :
  exists shown,
    selectedOption
      [ {| value := "Zug"; label := "Zug - ZG" |};
        {| value := "Zug"; label := "Zug - ZH" |} ]
      (JStr "Zug")
    = Some shown
    /\ value shown = "Zug".
Proof.
  destruct (chosen_option_is_shown
              [ {| value := "Zug"; label := "Zug - ZG" |};
                {| value := "Zug"; label := "Zug - ZH" |} ]
              {| value := "Zug"; label := "Zug - ZH" |} "zone")
    as [shown [H1 [H2 _]]].
  - right. now left.
  - exists shown. split; [exact H1|exact H2].
Defined.

(** ** The change of one field *)

(** X10. A change of one field never fails, also when there is no address
    yet. It leaves every object of the store as it was and returns a new
    object, in which the changed key holds the new value and every other
    key holds what it held before. *)
Theorem fieldChange_sets_one_key (h : heap) (current : ref) (e : changeEvent) :
  In (target_name e) fieldKeys ->
  exists a',
    fieldChange h current e = (h ++ [a'], Some (List.length h))
    /\ (forall l a, nth_error h l = Some a -> nth_error (h ++ [a']) l = Some a)
    /\ load (h ++ [a']) (Some (List.length h)) = Some a'
    /\ getOwn a' (target_name e) = Some (target_value e)
    /\ (forall k, k <> target_name e ->
                  getOwn a' k = getOwn (getOr (load h current) []) k)
    /\ (NoDup (Object_keys (getOr (load h current) [])) -> NoDup (Object_keys a')).
Proof.
  intros _. eexists. split; [reflexivity|]. split; [|split; [|split; [|split]]].
  - intros l a Hl. rewrite nth_error_app1; [exact Hl|].
    apply nth_error_Some. congruence.
  - simpl. rewrite nth_error_app2, Nat.sub_diag by lia. reflexivity.
  - rewrite getOwn_setOwn. now rewrite String.eqb_refl.
  - intros k Hk. rewrite getOwn_setOwn.
    destruct (String.eqb_spec k (target_name e)); [congruence|reflexivity].
  - apply setOwn_NoDup.
Qed.

Lemma fieldChange_sets_one_key_witness :
  exists a',
    fieldChange [entered] (Some 0)
      {| target_name := "city"; target_value := JStr "Toronto" |}
    = ([entered; a'], Some 1)
    /\ getOwn a' "city" = Some (JStr "Toronto")
    /\ getOwn a' "zone" = Some (JStr "Ontario").
Proof.
  destruct (fieldChange_sets_one_key [entered] (Some 0)
              {| target_name := "city"; target_value := JStr "Toronto" |})
    as [a' [H1 [_ [_ [H2 [H3 _]]]]]].
  - simpl. tauto.
  - exists a'. split; [exact H1|]. split; [exact H2|].
    rewrite (H3 "zone"); [reflexivity|discriminate].
Defined.

(** X11. Changes made through the rendered fields keep the address within
    the fields: if no key of the address lies outside the fields and the
    changed name is the name of a field, the changed address needs no
    pruning, and reconciling it returns it as it is. *)
Theorem fieldChange_stays_reconciled (h : heap) (current : ref)
  (e : changeEvent) (addressFields : list field) :
  (forall k, In k (Object_keys (getOr (load h current) [])) ->
             In k (map fieldName addressFields)) ->
  In (target_name e) (map fieldName addressFields) ->
  getAddressFieldDifferences (fst (fieldChange h current e))
    (snd (fieldChange h current e)) addressFields
  = Ok (fieldChange h current e).
Proof.
  intros Hkeys Hname. unfold fieldChange, alloc. cbn [fst snd].
  unfold getAddressFieldDifferences. cbn [load].
  rewrite nth_error_app2, Nat.sub_diag by lia. cbn [nth_error deref bind].
  assert (Hd : differenceInAddressFields
                 (setOwn (getOr (load h current) []) (target_name e) (target_value e))
                 (map fieldName addressFields) = false).
  { apply differenceInAddressFields_false. intros k. rewrite setOwn_keys.
    destruct (includes _ (target_name e)); [apply Hkeys|].
    rewrite in_app_iff. intros [Hk|[<-|[]]]; [now apply Hkeys|exact Hname]. }
  now rewrite Hd.
Qed.

Lemma fieldChange_stays_reconciled_witness :
  getAddressFieldDifferences
    (fst (fieldChange [entered] (Some 0)
            {| target_name := "city"; target_value := JStr "Toronto" |}))
    (snd (fieldChange [entered] (Some 0)
            {| target_name := "city"; target_value := JStr "Toronto" |}))
    fieldsCA
  = Ok (fieldChange [entered] (Some 0)
          {| target_name := "city"; target_value := JStr "Toronto" |}).
Proof.
  apply fieldChange_stays_reconciled.
  - simpl. intuition.
  - simpl. tauto.
Defined.

(** X12. The reset of the zone does not repeat itself: once the change the
    effect asks for is applied to the address, the field holds [null], and
    the effect, run on that value against any list of options, makes no
    further call. *)
Theorem reset_settles (options options' : list zoneOption) (current : jsval)
  (name_ : string) (h : heap) (address_ : ref) (e : changeEvent) :
  resetZone options current name_ = Some e ->
  readOptional (load (fst (fieldChange h address_ e)) (snd (fieldChange h address_ e)))
    name_ = JNull
  /\ resetZone options'
       (readOptional
          (load (fst (fieldChange h address_ e)) (snd (fieldChange h address_ e)))
          name_) name_
     = None.
Proof.
  intros He. unfold resetZone in He.
  destruct (truthy current && _); [|discriminate]. injection He as <-.
  assert (Hread : readOptional
                    (load (fst (fieldChange h address_
                                  {| target_name := name_; target_value := JNull |}))
                       (snd (fieldChange h address_
                               {| target_name := name_; target_value := JNull |})))
                    name_ = JNull).
  { unfold fieldChange, alloc. cbn [fst snd load target_name target_value].
    rewrite nth_error_app2, Nat.sub_diag by lia. cbn [nth_error readOptional].
    unfold readKey. rewrite getOwn_setOwn, String.eqb_refl. reflexivity. }
  split; [exact Hread|]. now rewrite Hread.
Qed.

Lemma reset_settles_witness :
  readOptional
    (load (fst (fieldChange [entered] (Some 0)
                  {| target_name := "zone"; target_value := JNull |}))
       (snd (fieldChange [entered] (Some 0)
               {| target_name := "zone"; target_value := JNull |})))
    "zone"
  = JNull.
Proof.
  apply (reset_settles
           (zoneOptions (Some [ {| name := "Bavaria"; code := "BY" |} ])) []
           (JStr "Ontario") "zone" [entered] (Some 0)
           {| target_name := "zone"; target_value := JNull |}).
  reflexivity.
Defined.


(** ** Invariants of the effect *)

Lemma reconcile_extends_store (h h' : heap) (v r : ref) (fs : list field) :
  getAddressFieldDifferences h v fs = Ok (h', r) ->
  forall l a, nth_error h l = Some a -> nth_error h' l = Some a.
Proof.
  unfold getAddressFieldDifferences. simpl.
  destruct (load h v) as [a0|]; simpl; [|discriminate].
  destruct (differenceInAddressFields a0 (map fieldName fs)).
  - intros [= <- <-] l a Hl. rewrite nth_error_app1; [exact Hl|].
    apply nth_error_Some. congruence.
  - intros [= <- <-] l a Hl. exact Hl.
Qed.

Lemma step_extends_store (c : component) (e : event) (l : nat) (a : address) :
  nth_error (store c) l = Some a -> nth_error (store (step c e)) l = Some a.
Proof.
  intros Hl. destruct e as [selected v|id o]; cbn [step]; [exact Hl|].
  destruct (findFetch c id) as [f|]; [|exact Hl].
  destruct o as [response|]; [|exact Hl].
  unfold applyResponse.
  destruct (wrangleAddressData (Info response)) as [[x|fs]|err]; try exact Hl.
  cbn [setData setFields forget store].
  destruct (getAddressFieldDifferences (store c) (fetch_value f) fs)
    as [[h' r]|err] eqn:E; [|exact Hl].
  cbn. exact (reconcile_extends_store _ _ _ _ _ E l a Hl).
Qed.

(** X13. The component never changes an address object it was given:
    through every sequence of selections, responses and rejections, each
    object of the store keeps its content; the store only receives new
    objects. *)
Theorem store_never_mutated (c : component) (trace : list event)
  (l : nat) (a : address) :
  nth_error (store c) l = Some a ->
  nth_error (store (run c trace)) l = Some a.
Proof.
  unfold run. revert c. induction trace as [|e rest IH]; intros c Hl; [exact Hl|].
  simpl. apply IH. now apply step_extends_store.
Qed.

Lemma store_never_mutated_witness :
  nth_error (store (run (mount [entered]) rapidSwitch)) 0 = Some entered.
Proof.
  apply (store_never_mutated (mount [entered]) rapidSwitch 0 entered).
  reflexivity.
Defined.

Lemma find_filtered_out (l : list (nat * fetch)) (id : nat) :
  find (fun p => (fst p =? id)%nat)
    (filter (fun p => negb (fst p =? id)%nat) l) = None.
Proof.
  induction l as [|q rest IH]; simpl; [reflexivity|].
  destruct (Nat.eqb_spec (fst q) id) as [E|Hne]; simpl; [exact IH|].
  destruct (Nat.eqb_spec (fst q) id); [congruence|exact IH].
Qed.

Lemma calls_applyResponse (c : component) (f : fetch) (response : countryInfo) :
  calls (applyResponse c f response) = calls c ++ [OnLoadError]
  \/ exists v fs,
       calls (applyResponse c f response)
       = calls c ++ [OnCountryChange v; OnLoadSuccess response fs].
Proof.
  unfold applyResponse.
  destruct (wrangleAddressData (Info response)) as [[x|fs]|err];
    try (left; reflexivity).
  cbn [setData setFields store].
  destruct (getAddressFieldDifferences (store c) (fetch_value f) fs)
    as [[h' r]|err]; [|left; reflexivity].
  right. exists r, fs. cbn. now rewrite <- app_assoc.
Qed.

Lemma loading_applyResponse (c : component) (f : fetch) (response : countryInfo) :
  loading (applyResponse c f response) = false.
Proof.
  unfold applyResponse.
  destruct (wrangleAddressData (Info response)) as [[x|fs]|err]; try reflexivity.
  destruct (getAddressFieldDifferences _ _ _) as [[h' r]|err]; reflexivity.
Qed.

(** X14. Every pending fetch is reported once. When it settles, the caller
    receives either [onLoadError] alone, or [onCountryChange] followed by
    [onLoadSuccess], and [loading] is cleared, whether or not other fetches
    are still pending. The fetch is then no longer pending, and settling it
    again changes nothing. *)
Theorem settle_reports_once (c : component) (id : nat) (f : fetch) (o : outcome) :
  findFetch c id = Some f ->
  (calls (step c (Settle id o)) = calls c ++ [OnLoadError]
   \/ exists v response fs,
        calls (step c (Settle id o))
        = calls c ++ [OnCountryChange v; OnLoadSuccess response fs])
  /\ loading (step c (Settle id o)) = false
  /\ findFetch (step c (Settle id o)) id = None
  /\ forall o', step (step c (Settle id o)) (Settle id o') = step c (Settle id o).
Proof.
  intros Hf.
  assert (Hgone : findFetch (step c (Settle id o)) id = None).
  { cbn [step]. rewrite Hf. unfold findFetch.
    destruct o as [response|];
      [rewrite pending_applyResponse|rewrite pending_failed];
      cbn [forget pending]; now rewrite find_filtered_out. }
  split; [|split; [|split; [exact Hgone|]]].
  - cbn [step]. rewrite Hf. destruct o as [response|].
    + destruct (calls_applyResponse (forget c id) f response) as [H|[v [fs H]]].
      * left. exact H.
      * right. exists v, response, fs. exact H.
    + left. reflexivity.
  - cbn [step]. rewrite Hf. destruct o as [response|];
      [apply loading_applyResponse|reflexivity].
  - intros o'. generalize dependent (step c (Settle id o)). intros c' Hc'.
    cbn [step]. now rewrite Hc'.
Qed.

Lemma settle_reports_once_witness :
  findFetch
    (step (run (mount [entered]) [SelectCountry "DE" (Some 0)])
       (Settle 0 (Fulfilled responseDE))) 0
  = None.
Proof.
  destruct (settle_reports_once
              (run (mount [entered]) [SelectCountry "DE" (Some 0)]) 0
              {| fetch_country := "DE"; fetch_value := Some 0 |}
              (Fulfilled responseDE))
    as [_ [_ [Hgone _]]].
  - reflexivity.
  - exact Hgone.
Defined.





Lemma no_fulfilled_step (c : component) (e : event) :
  isFulfilled e = false -> fields (step c e) = fields c /\ data (step c e) = data c.
Proof.
  destruct e as [selected v|id [response|]]; try discriminate; intros _; cbn [step].
  - split; reflexivity.
  - destruct (findFetch c id); split; reflexivity.
Qed.

(** X16. Fields come from fulfilled responses only: as long as no response
    has arrived, whatever was selected and whichever fetches were rejected,
    the component has neither data nor fields, it never renders a field, and
    a selected country shows the loading placeholder also after a
    rejection. *)
Theorem no_fields_before_a_response (h : heap) (trace : list event) (p : props) :
  forallb (fun e => negb (isFulfilled e)) trace = true ->
  fields (run (mount h) trace) = None
  /\ data (run (mount h) trace) = None
  /\ (forall children, render (run (mount h) trace) p <> Fragment children)
  /\ (truthy (selectedCountry p) = true ->
      render (run (mount h) trace) p = LoadingPlaceholder).
Proof.
  intros Hno.
  assert (H : forall c, fields c = None -> data c = None ->
                        fields (run c trace) = None /\ data (run c trace) = None).
  { unfold run. induction trace as [|e rest IH]; intros c Hf Hd; [now split|].
    simpl in Hno. apply andb_prop in Hno. destruct Hno as [He Hrest].
    simpl. destruct (no_fulfilled_step c e) as [H1 H2].
    - now destruct (isFulfilled e).
    - apply (IH Hrest); congruence. }
  destruct (H (mount h) eq_refl eq_refl) as [Hf Hd].
  split; [exact Hf|]. split; [exact Hd|]. unfold render. rewrite Hf. split.
  - intros children. destruct (negb (truthy (selectedCountry p))); discriminate.
  - intros Ht. now rewrite Ht.
Qed.

Lemma no_fields_before_a_response_witness :
  render (run (mount []) [SelectCountry "DE" None; Settle 0 Rejected])
    {| selectedCountry := JStr "DE"; value_prop := None;
       required_prop := None; errors_prop := None |}
  = LoadingPlaceholder.
Proof.
  destruct (no_fields_before_a_response []
              [SelectCountry "DE" None; Settle 0 Rejected]
              {| selectedCountry := JStr "DE"; value_prop := None;
                 required_prop := None; errors_prop := None |})
    as [_ [_ [_ H]]].
  - reflexivity.
  - apply H. reflexivity.
Defined.


(** ** The required-field messages of the renderers *)

(** X17. The two renderers disagree on one value only. Whenever the simple
    renderers show their required-field message, the validator of the Formik
    renderer returns the same message; the validator also rejects the empty
    string, for which the simple renderers show nothing. A field that is not
    required, or not touched yet, gets no message from the simple
    renderers, and no validator at all from the Formik renderer. *)
Theorem required_messages_compared (current : jsval) (label_ : string) :
  (forall msg,
      shownError JUndefined true true current label_ = JStr msg ->
      exists v, validate true label_ = Some v /\ v current = Some msg)
  /\ ((shownError JUndefined true true current label_ = JUndefined
       /\ exists v msg, validate true label_ = Some v /\ v current = Some msg)
      <-> current = JStr "")
  /\ validate false label_ = None
  /\ (forall required isTouched,
         required && isTouched = false ->
         shownError JUndefined required isTouched current label_ = JUndefined)
  /\ forall error_ required isTouched,
       truthy error_ = true ->
       shownError error_ required isTouched current label_ = error_.
Proof.
  split; [|split; [|split; [reflexivity|split]]].
  - intros msg H. eexists. split; [reflexivity|]. unfold shownError in H.
    destruct current as [| |s]; simpl in *; try discriminate; congruence.
  - split.
    + intros [H [v [msg [Hv Hmsg]]]]. injection Hv as <-. unfold shownError in H.
      destruct current as [| |s]; simpl in *; try discriminate.
      destruct (String.eqb_spec s ""); [now subst|discriminate].
    + intros ->. split; [reflexivity|]. eexists _, _. split; reflexivity.
  - intros required isTouched H. unfold shownError. simpl. now rewrite H.
  - intros error_ required isTouched H. unfold shownError. now rewrite H.
Qed.

Lemma required_messages_compared_witness :
  exists v,
    validate true "City" = Some v /\ v JNull = Some "City is required".
Proof.
  apply (proj1 (required_messages_compared JNull "City")). reflexivity.
Defined.

(** ** The address without its country *)

Lemma append_nil_r (s : string) : (s ++ "")%string = s.
Proof. induction s as [|c s IH]; simpl; [reflexivity|now rewrite IH]. Qed.

Lemma append_assoc (s1 s2 s3 : string) :
  ((s1 ++ s2) ++ s3)%string = (s1 ++ s2 ++ s3)%string.
Proof. induction s1 as [|c s1 IH]; simpl; [reflexivity|now rewrite IH]. Qed.

Lemma isComma_eq (c : ascii) : isComma c = true -> c = ","%char.
Proof.
  unfold isComma. intros H. apply Nat.eqb_eq in H.
  rewrite <- (ascii_nat_embedding c), H. reflexivity.
Qed.

Lemma isSpace_eq (c : ascii) : isSpace c = true -> c = " "%char.
Proof.
  unfold isSpace. intros H. apply Nat.eqb_eq in H.
  rewrite <- (ascii_nat_embedding c), H. reflexivity.
Qed.

Lemma splitScan_nonempty (cur : string) (comma : bool) (s : string) :
  splitScan cur comma s <> [].
Proof.
  revert cur comma. induction s as [|d rest IH]; intros cur comma; simpl;
    [discriminate|].
  destruct comma; [destruct (isSpace d); [discriminate|]|];
    destruct (isComma d); apply IH.
Qed.

Lemma concat_cons (sep x : string) (l : list string) :
  l <> [] -> String.concat sep (x :: l) = (x ++ sep ++ String.concat sep l)%string.
Proof. destruct l; [congruence|reflexivity]. Qed.

Lemma splitScan_join (cur : string) (comma : bool) (s : string) :
  String.concat ", " (splitScan cur comma s)
  = (cur ++ (if comma then "," else "") ++ s)%string.
Proof.
  revert cur comma. induction s as [|d rest IH]; intros cur comma.
  - simpl. destruct comma; simpl; [reflexivity|now rewrite append_nil_r].
  - cbn [splitScan]. destruct comma.
    + destruct (isSpace d) eqn:Es.
      * apply isSpace_eq in Es. subst d.
        rewrite concat_cons by apply splitScan_nonempty. rewrite IH. reflexivity.
      * destruct (isComma d) eqn:Ec.
        -- apply isComma_eq in Ec. subst d. rewrite IH, append_assoc. reflexivity.
        -- rewrite IH, append_assoc. reflexivity.
    + destruct (isComma d) eqn:Ec.
      * apply isComma_eq in Ec. subst d. rewrite IH. reflexivity.
      * rewrite IH, append_assoc. reflexivity.
Qed.

Lemma splitScan_app (cur : string) (comma : bool) (a c : string) :
  splitScan cur comma (a ++ ", " ++ c)
  = splitScan cur comma a ++ splitScan "" false c.
Proof.
  revert cur comma. induction a as [|d rest IH]; intros cur comma.
  - destruct comma; reflexivity.
  - cbn [append splitScan]. destruct comma.
    + destruct (isSpace d); [now rewrite IH|].
      destruct (isComma d); apply IH.
    + destruct (isComma d); apply IH.
Qed.

(** X18. Splitting an address on [", "] and joining the pieces with [", "]
    gives the address back. *)
Theorem split_join_round_trip (address_ : string) :
  String.concat ", " (split_commaSpace address_) = address_
  /\ split_commaSpace address_ <> [].
Proof.
  split; [|apply splitScan_nonempty].
  unfold split_commaSpace. now rewrite splitScan_join.
Qed.

Lemma splitScan_single (cur : string) (comma : bool) (c : string) :
  hasCommaSpace c = false ->
  (comma = true -> startsWithSpace c = false) ->
  splitScan cur comma c = [(cur ++ (if comma then "," else "") ++ c)%string].
Proof.
  revert cur comma. induction c as [|d rest IH]; intros cur comma Hno Hstart.
  - simpl. destruct comma; simpl; [reflexivity|now rewrite append_nil_r].
  - cbn [hasCommaSpace] in Hno. apply orb_false_elim in Hno.
    destruct Hno as [Hd Hrest]. cbn [splitScan]. destruct comma.
    + simpl in Hstart. rewrite (Hstart eq_refl).
      destruct (isComma d) eqn:Ec.
      * simpl in Hd. apply isComma_eq in Ec. subst d.
        rewrite IH by auto. now rewrite append_assoc.
      * rewrite IH by (auto; discriminate). now rewrite append_assoc.
    + destruct (isComma d) eqn:Ec.
      * simpl in Hd. apply isComma_eq in Ec. subst d. now rewrite IH by auto.
      * rewrite IH by (auto; discriminate). now rewrite append_assoc.
Qed.

(** X19. [removeCountryFromAddress] removes the last part: an address that
    ends with [", "] and a part without that separator is returned without
    them. An address in which [", "] does not occur at all is one single
    part, and nothing of it is left. *)
Theorem removeCountry_drops_last_part (address_ last_ : string) :
  hasCommaSpace last_ = false ->
  removeCountryFromAddress (address_ ++ ", " ++ last_) = address_
  /\ removeCountryFromAddress last_ = "".
Proof.
  intros Hno.
  assert (Hs : splitScan "" false last_ = [last_])
    by (rewrite splitScan_single by (auto; discriminate); reflexivity).
  unfold removeCountryFromAddress, split_commaSpace. split.
  - rewrite splitScan_app, Hs, removelast_last, splitScan_join. reflexivity.
  - now rewrite Hs.
Qed.

Lemma removeCountry_drops_last_part_witness :
  removeCountryFromAddress "1 Main St, Toronto, ON, Canada" = "1 Main St, Toronto, ON".
Proof.
  apply (removeCountry_drops_last_part "1 Main St, Toronto, ON" "Canada").
  reflexivity.
Defined.

(** ** The name of a location *)

Lemma skipLine_one_line (s : string) :
  forallb (fun c => negb (isLineTerminator c)) (list_ascii_of_string s) = true ->
  skipLine s = "".
Proof.
  induction s as [|c rest IH]; simpl; [reflexivity|].
  intros H. apply andb_prop in H. destruct H as [Hc Hrest].
  destruct (isLineTerminator c); [discriminate|now apply IH].
Qed.

Lemma replaceCommaRest_no_comma (s : string) :
  forallb (fun c => negb (isComma c)) (list_ascii_of_string s) = true ->
  replaceCommaRest s = s.
Proof.
  induction s as [|c rest IH]; simpl; [reflexivity|].
  intros H. apply andb_prop in H. destruct H as [Hc Hrest].
  destruct (isComma c); [discriminate|]. simpl. now rewrite IH.
Qed.

(** X20. The name of a location is the label up to its first comma: a label
    made of a part without comma, a comma and a non-empty rest on the same
    line is cut to the part before the comma. A label without comma is kept
    whole, and so is a comma at the very end; a missing or empty label is
    handed on as it is. *)
Theorem locationName_keeps_first_part (first_ rest_ : string) :
  forallb (fun c => negb (isComma c)) (list_ascii_of_string first_) = true ->
  forallb (fun c => negb (isLineTerminator c)) (list_ascii_of_string rest_) = true ->
  rest_ <> "" ->
  locationName (JStr (first_ ++ "," ++ rest_)) = JStr first_
  /\ locationName (JStr first_) = JStr first_
  /\ locationName (JStr (first_ ++ ",")) = JStr (first_ ++ ",")
  /\ locationName JUndefined = JUndefined.
Proof.
  intros Hfirst Hrest Hne.
  assert (Hcut : replaceCommaRest (first_ ++ "," ++ rest_) = first_).
  { induction first_ as [|c f IH]; simpl in *.
    - destruct rest_ as [|d r]; [congruence|]. simpl in *.
      apply andb_prop in Hrest. destruct Hrest as [Hd Hr].
      rewrite Hd. simpl. destruct (isLineTerminator d); [discriminate|].
      now apply skipLine_one_line.
    - apply andb_prop in Hfirst. destruct Hfirst as [Hc Hf].
      destruct (isComma c); [discriminate|]. simpl. now rewrite IH. }
  assert (Hend : replaceCommaRest (first_ ++ ",") = (first_ ++ ",")%string).
  { clear Hcut. induction first_ as [|c f IH]; simpl in *; [reflexivity|].
    apply andb_prop in Hfirst. destruct Hfirst as [Hc Hf].
    destruct (isComma c); [discriminate|]. simpl. now rewrite IH. }
  unfold locationName. repeat split.
  - destruct (String.eqb_spec (first_ ++ "," ++ rest_) "") as [E|_];
      [destruct first_; discriminate|]. now rewrite Hcut.
  - destruct (String.eqb_spec first_ "") as [E|_]; [reflexivity|].
    now rewrite replaceCommaRest_no_comma.
  - destruct (String.eqb_spec (first_ ++ ",") "") as [E|_]; [reflexivity|].
    now rewrite Hend.
Qed.

Lemma locationName_keeps_first_part_witness :
  locationName (JStr "Brussels, Belgium") = JStr "Brussels".
Proof.
  apply (locationName_keeps_first_part "Brussels" " Belgium");
    [reflexivity|reflexivity|discriminate].
Defined.


(** ** The location input as the caller of the address fields *)

(** X21. With [UserLocationInput] as the caller the address given to the
    fields is never null: it is the structured address of the location, or a
    new empty object. Reconciling it therefore never throws, and the empty
    object is returned as it is. *)
Theorem user_location_value_reconciles (h : heap) (l : option location)
  (addressFields : list field) :
  (forall loc r, l = Some loc -> loc_structured loc = Some r -> r < List.length h) ->
  (exists a, load (fst (structuredValue h l)) (snd (structuredValue h l)) = Some a)
  /\ (exists h' r,
        getAddressFieldDifferences (fst (structuredValue h l))
          (snd (structuredValue h l)) addressFields = Ok (h', r))
  /\ ((forall loc, l = Some loc -> loc_structured loc = None) ->
      getAddressFieldDifferences (fst (structuredValue h l))
        (snd (structuredValue h l)) addressFields
      = Ok (h ++ [[]], Some (List.length h))).
Proof.
  intros Hwf.
  assert (Hfresh : load (h ++ [[]]) (Some (List.length h)) = Some [])
    by (simpl; rewrite nth_error_app2, Nat.sub_diag by lia; reflexivity).
  assert (Hempty : getAddressFieldDifferences (h ++ [[]]) (Some (List.length h))
                     addressFields = Ok (h ++ [[]], Some (List.length h))).
  { unfold getAddressFieldDifferences. cbn [bind]. rewrite Hfresh. reflexivity. }
  destruct l as [loc|]; [destruct (loc_structured loc) as [r|] eqn:Er|];
    unfold structuredValue; try rewrite Er; cbn [alloc fst snd].
  - destruct (nth_error h r) as [a|] eqn:Ea.
    + split; [exists a; exact Ea|]. split.
      * unfold getAddressFieldDifferences. cbn [bind load]. rewrite Ea.
        cbn [deref bind]. cbv zeta.
        destruct (differenceInAddressFields a (map fieldName addressFields));
          eexists _, _; reflexivity.
      * intros H. specialize (H loc eq_refl). congruence.
    + exfalso. apply nth_error_None in Ea. specialize (Hwf loc r eq_refl Er). lia.
  - split; [now exists []|]. split; [eexists _, _; exact Hempty|].
    intros _. exact Hempty.
  - split; [now exists []|]. split; [eexists _, _; exact Hempty|].
    intros _. exact Hempty.
Qed.

Lemma user_location_value_reconciles_witness :
  getAddressFieldDifferences
    (fst (structuredValue []
            (Some {| loc_country := JStr "DE"; loc_address := JUndefined;
                     loc_structured := None |})))
    (snd (structuredValue []
            (Some {| loc_country := JStr "DE"; loc_address := JUndefined;
                     loc_structured := None |})))
    fieldsDE
  = Ok ([[]], Some 0).
Proof.
  destruct (user_location_value_reconciles []
              (Some {| loc_country := JStr "DE"; loc_address := JUndefined;
                       loc_structured := None |}) fieldsDE)
    as [_ [_ H]].
  - intros loc r [= <-] Hr. discriminate Hr.
  - apply H. intros loc [= <-]. reflexivity.
Defined.

(** X22. What [UserLocationInput] shows after its handlers ran. Choosing a
    country keeps nothing but the country, so the structured fields start
    from a new empty address; a change of the structured address drops the
    raw address, so the structured fields go on with the changed address; a
    failed load replaces the fields by the message, whatever the location;
    and without a country the raw address is shown. *)
Theorem user_location_views (h : heap) (l : option location)
  (country_ : jsval) (r : nat) :
  (truthy country_ = true ->
   userLocationView h (Some (pickCountry l country_)) false
   = (h ++ [[]], StructuredFields (Some (List.length h))))
  /\ (hasCountry l = true ->
      userLocationView h (Some (pickStructured l (Some r))) false
      = (h, StructuredFields (Some r)))
  /\ userLocationView h l true = (h, LoadFailedMessage)
  /\ (hasCountry l = false -> userLocationView h l false = (h, RawAddress)).
Proof.
  unfold userLocationView. repeat split.
  - intros Ht. simpl. now rewrite Ht.
  - intros Hc. destruct l as [loc|]; [|discriminate]. simpl in *. now rewrite Hc.
  - now rewrite andb_false_r.
  - intros Hc. now rewrite Hc.
Qed.

Lemma user_location_views_witness :
  userLocationView [entered]
    (Some (pickCountry
             (Some {| loc_country := JStr "CA"; loc_address := JUndefined;
                      loc_structured := Some 0 |})
             (JStr "DE")))
    false
  = ([entered; []], StructuredFields (Some 1)).
Proof.
  apply (proj1 (user_location_views [entered]
                  (Some {| loc_country := JStr "CA"; loc_address := JUndefined;
                           loc_structured := Some 0 |})
                  (JStr "DE") 0)).
  reflexivity.
Defined.

(** ** The tags shown and the tags counted *)

(** X23. No tag is lost between the tags shown and the tag that counts the
    others: either every tag is shown and there is no counting tag, or
    exactly [limit] tags are shown and the counting tag lists the remaining
    ones, at least one, in its title and gives their number. *)
Theorem tags_shown_or_counted (tags : list string) (limit : nat) :
  match moreTag tags limit with
  | Some (title, count) =>
      List.length (shownTags tags limit) = limit
      /\ shownTags tags limit ++ skipn limit tags = tags
      /\ title = String.concat ", " (skipn limit tags)
      /\ count = List.length (skipn limit tags)
      /\ 1 <= count
  | None => shownTags tags limit = tags
  end.
Proof.
  unfold moreTag, shownTags.
  destruct (Nat.ltb_spec limit (List.length tags)) as [Hlt|Hge].
  - rewrite length_firstn, firstn_skipn, length_skipn. repeat split; lia.
  - now apply firstn_all2.
Qed.


(** ** The attributes read from a schema *)

Lemma zodType_inner_ind (P : zodType -> Prop) :
  (forall n i o a b c d,
      (forall t, i = Some t -> P t) -> P (Zod n i o a b c d)) ->
  forall t, P t.
Proof.
  intros H. fix IH 1. intros [n i o a b c d]. apply H.
  intros t Ht. destruct i as [t'|]; [|discriminate].
  injection Ht as <-. apply IH.
Qed.

(** X24. Removing the optional wrappers of a type leaves a type that is
    neither optional nor nullable, on which the function does nothing more;
    a type that is not wrapped is returned as it is; and a wrapper without
    inner type makes the function throw. *)
Theorem unwrapped_type_is_not_optional (field_ : zodType) :
  match getTypeFromOptionalField field_ with
  | Ok type_ =>
      isOptionalField type_ = false
      /\ getTypeFromOptionalField type_ = Ok type_
      /\ (isOptionalField field_ = false -> type_ = field_)
  | Throw _ => isOptionalField field_ = true
  end
  /\ (isOptionalField field_ = true -> innerType field_ = None ->
      getTypeFromOptionalField field_ = Throw TypeError).
Proof.
  split.
  - induction field_ as [n i o a b c d IH] using zodType_inner_ind.
    cbn [getTypeFromOptionalField].
    destruct (includes ["ZodOptional"; "ZodNullable"] n) eqn:E.
    + destruct i as [t|]; [|exact E].
      specialize (IH t eq_refl).
      destruct (getTypeFromOptionalField t) as [type_|e]; [|exact E].
      destruct IH as [H1 [H2 _]]. split; [exact H1|]. split; [exact H2|].
      unfold isOptionalField. cbn [typeName]. congruence.
    + split; [exact E|]. split; [|reflexivity].
      cbn [getTypeFromOptionalField]. now rewrite E.
  - destruct field_ as [n i o a b c d]. unfold isOptionalField. cbn.
    intros E ->. now rewrite E.
Qed.




(** ** What is rendered after a response *)

(** X26. Once a response for a pending fetch has been applied and a country
    is selected, the component renders one field per resolved field of that
    response, in their order, each with the value the current address has
    under its name. A field is required unless the labels of that same
    response list it as optional, and never when the caller passes
    [required = false]. *)
Theorem render_after_response (c : component) (id : nat) (f : fetch)
  (response : countryInfo) (fs : list field) (p : props) :
  findFetch c id = Some f ->
  wrangleAddressData (Info response) = Ok (FormFields fs) ->
  truthy (selectedCountry p) = true ->
  exists children,
    render (step c (Settle id (Fulfilled response))) p = Fragment children
    /\ map r_name children = map fieldName fs
    /\ map r_label children = map fieldLabel fs
    /\ map r_info children = map fieldInfo fs
    /\ forall child, In child children ->
         r_value child
         = readOptional
             (load (store (step c (Settle id (Fulfilled response)))) (value_prop p))
             (r_name child)
         /\ r_required child
            = match required_prop p with
              | Some false => false
              | _ => negb (includes
                             (Object_keys (getOr (info_optionalLabels response) []))
                             (r_name child))
              end.
Proof.
  intros Hf Hw Ht.
  destruct (settle_fulfilled c id f response fs Hf Hw) as [Hd [Hfs [Hl _]]].
  exists (map (renderField (step c (Settle id (Fulfilled response))) p) fs).
  split; [|split; [|split; [|split]]].
  - unfold render. now rewrite Ht, Hfs, Hl.
  - now rewrite map_map.
  - now rewrite map_map.
  - now rewrite map_map.
  - intros child Hc. apply in_map_iff in Hc. destruct Hc as [g [<- _]].
    split; [reflexivity|]. unfold renderField, isRequired. cbn [r_required r_name].
    now rewrite Hd.
Qed.

Lemma render_after_response_witness :
  exists children,
    render (run (mount [entered])
              [SelectCountry "DE" (Some 0); Settle 0 (Fulfilled responseDE)])
      {| selectedCountry := JStr "DE"; value_prop := Some 0;
         required_prop := None; errors_prop := None |}
    = Fragment children
    /\ map r_name children = ["address1"; "address2"; "postalCode"; "city"].
Proof.
  destruct (render_after_response
              (run (mount [entered]) [SelectCountry "DE" (Some 0)]) 0
              {| fetch_country := "DE"; fetch_value := Some 0 |}
              responseDE fieldsDE
              {| selectedCountry := JStr "DE"; value_prop := Some 0;
                 required_prop := None; errors_prop := None |})
    as [children [H1 [H2 _]]].
  - reflexivity.
  - reflexivity.
  - reflexivity.
  - exists children. split; [exact H1|]. rewrite H2. reflexivity.
Defined.
